(** * safekeeper: environment-variable templating of one source file

    A shallow embedding of [safekeeper.go].  Go strings are byte strings
    and are modelled by [string]; the [map[string]string] of resolved keys is
    a [gmap string string]; the operating system (environment, file system,
    the order in which a Go map is ranged over) is an explicit [world];
    [log.Fatal] is the [Fatal] outcome of the [proc] monad. *)

From Stdlib Require Import String Ascii List Bool Arith NArith Lia Permutation.
From stdpp Require Import gmap strings.

Import ListNotations.
Local Open Scope string_scope.
Local Open Scope list_scope.

#[local] Arguments String.append !_ _ / : simpl nomatch.

(** ** The Go standard library, as far as the program uses it *)

Module strings.

(** [strings.HasPrefix s prefix]. *)
Fixpoint HasPrefix (s prefix : string) : bool :=
  match prefix, s with
  | EmptyString, _ => true
  | String _ _, EmptyString => false
  | String a p', String b s' => Ascii.eqb a b && HasPrefix s' p'
  end.

(** [strings.Contains s substr]: [substr] occurs at some position of [s]. *)
Fixpoint Contains (s substr : string) : bool :=
  match s with
  | EmptyString => HasPrefix s substr
  | String _ s' => HasPrefix s substr || Contains s' substr
  end.

(** [strings.Split s sep] for the one-byte separator the program uses.
    The result is never empty: [Split "" sep = [""]]. *)
Fixpoint Split (s : string) (sep : ascii) : list string :=
  match s with
  | EmptyString => [EmptyString]
  | String c s' =>
      if Ascii.eqb c sep then EmptyString :: Split s' sep
      else match Split s' sep with
           | h :: t => String c h :: t
           | [] => [String c EmptyString]
           end
  end.

(** A [strings.Replacer] built by [strings.NewReplacer old new] from one
    pair.  The program only builds replacers whose [old] starts with the
    four bytes [ENV_], for which Go selects its single-string replacer:
    the leftmost occurrence of [old] is replaced, the search resumes right
    after it, and so on to the end of the string. *)
Record Replacer := NewReplacer { old : string; new : string }.

(** The scan of [Replacer.Replace]: [skip] counts the bytes of a matched
    occurrence that are still to be passed over. *)
Fixpoint replaceFrom (r : Replacer) (skip : nat) (s : string) : string :=
  match s with
  | EmptyString => EmptyString
  | String c s' =>
      match skip with
      | S k => replaceFrom r k s'
      | O =>
          if HasPrefix s (old r)
          then new r +:+ replaceFrom r (String.length (old r) - 1) s'
          else String c (replaceFrom r 0 s')
      end
  end.

Definition Replace (r : Replacer) (s : string) : string := replaceFrom r 0 s.

End strings.

(** The line feed and carriage return bytes. *)
Definition LF : ascii := ascii_of_nat 10.
Definition CR : ascii := ascii_of_nat 13.
Definition newline : string := String LF EmptyString.

Module fmt.
(** [fmt.Sprintln] of one string operand. *)
Definition Sprintln (s : string) : string := s +:+ newline.
End fmt.

(** ** The world a run executes in *)

(** What a path names. *)
Inductive node := Dir | Reg (data : string).

(** Ranging over a Go map visits its entries in an order the language leaves
    unspecified: any rearrangement of the entries may be observed. *)
Record range_order := RangeOrder {
  visit :> list (string * string) -> list (string * string);
  visit_perm : forall l, Permutation (visit l) l }.

Record world := World {
  environ : string -> option string;   (* the process environment *)
  files : string -> option node;       (* the file system, by path *)
  writable : string -> bool;           (* may this path be created or truncated *)
  maprange : range_order }.

(** System calls a run performs, in order. *)
Inductive event :=
| EvGetenv (key : string)
| EvStat (name : string)
| EvOpen (name : string)
| EvWriteFile (name data : string).

(** Go [error] values the program meets. *)
Inductive error :=
| errorsNew (msg : string)        (* errors.New *)
| PathError (op path : string)    (* *os.PathError of a failed system call *)
| ErrTooLong.                     (* bufio.ErrTooLong *)

(** The operand of the [log.Fatal] / [log.Fatalf] call that ended the run. *)
Inductive fatal :=
| FatalErr (err : error)                  (* log.Fatal(err) *)
| FatalMsg (msg : string)                 (* log.Fatal("...") *)
| FatalfErr (format : string) (err : error). (* log.Fatalf(format, err) *)

Definition state : Type := world * list event.

Inductive outcome (A : Type) :=
| Ret (a : A) (st : state)
| Fatal (f : fatal) (st : state).
Arguments Ret {A} a st.
Arguments Fatal {A} f st.

(** Computations that read and change the world, log their system calls and
    may end the process. *)
Definition proc (A : Type) : Type := state -> outcome A.

Definition ret {A} (a : A) : proc A := fun st => Ret a st.

Definition bind {A B} (c : proc A) (k : A -> proc B) : proc B :=
  fun st => match c st with
            | Ret a st' => k a st'
            | Fatal f st' => Fatal f st'
            end.

Notation "'let*' x ':=' c 'in' k" := (bind c (fun x => k))
  (at level 10, x pattern, c at level 100, k at level 200).

Module log.
Definition Fatal {A} (f : fatal) : proc A := fun st => Fatal f st.
End log.

Definition syscall {A} (ev : event) (f : world -> A * world) : proc A :=
  fun '(w, tr) => let '(a, w') := f w in Ret a (w', tr ++ [ev]).

Module os.

(** [os.Getenv]: the value of the variable, empty when it is unset; the
    empty name is never set. *)
Definition lookupEnv (w : world) (key : string) : string :=
  match key with
  | EmptyString => EmptyString
  | _ => match environ w key with Some v => v | None => EmptyString end
  end.

Definition Getenv (key : string) : proc string :=
  syscall (EvGetenv key) (fun w => (lookupEnv w key, w)).

Record FileInfo := { IsDir : bool }.

Definition Stat (name : string) : proc (FileInfo + error) :=
  syscall (EvStat name) (fun w =>
    (match files w name with
     | Some Dir => inl {| IsDir := true |}
     | Some (Reg _) => inl {| IsDir := false |}
     | None => inr (PathError "stat" name)
     end, w)).

(** An open file: its name and what it holds. *)
Record File := { Name : string; holds : node }.

Definition Open (name : string) : proc (File + error) :=
  syscall (EvOpen name) (fun w =>
    (match files w name with
     | Some n => inl {| Name := name; holds := n |}
     | None => inr (PathError "open" name)
     end, w)).

End os.

Module ioutil.

Definition canWrite (w : world) (name : string) : bool :=
  writable w name && match files w name with Some Dir => false | _ => true end.

Definition store (w : world) (name data : string) : world :=
  {| environ := environ w;
     files := fun p => if String.eqb p name then Some (Reg data) else files w p;
     writable := writable w;
     maprange := maprange w |}.

(** [ioutil.WriteFile name data 0644]: the file is created or replaced as a
    whole.  Paths are names: two names of one file are two entries of
    [files]; a refused write is an error of the open call, and what a write
    that fails later leaves in the destination is not modelled. *)
Definition WriteFile (name data : string) : proc (option error) :=
  syscall (EvWriteFile name data) (fun w =>
    if canWrite w name then (None, store w name data)
    else (Some (PathError "open" name), w)).

End ioutil.

Module bufio.

Definition MaxScanTokenSize : N := 65536.

(** The input cut after every line feed; a last piece without a line feed
    is a line of its own unless it is empty. *)
Fixpoint rawLines (s : string) : list string :=
  match s with
  | EmptyString => []
  | String c s' =>
      if Ascii.eqb c LF then EmptyString :: rawLines s'
      else match rawLines s' with
           | h :: t => String c h :: t
           | [] => [String c EmptyString]
           end
  end.

(** [dropCR] of [ScanLines]: one trailing carriage return is removed. *)
Fixpoint dropCR (s : string) : string :=
  match s with
  | EmptyString => EmptyString
  | String c EmptyString => if Ascii.eqb c CR then EmptyString else s
  | String c s' => String c (dropCR s')
  end.

(** A line is delivered only if it fits the scanner's buffer together
    with its line feed. *)
Definition fits (raw : string) : bool :=
  (N.of_nat (String.length raw) <? MaxScanTokenSize)%N.

(** The texts successive calls of [Scanner.Scan] deliver until it returns
    false, and the value of [Scanner.Err] from then on. *)
Fixpoint scanLines (raws : list string) : list string * option error :=
  match raws with
  | [] => ([], None)
  | raw :: rest =>
      if fits raw
      then let '(ls, e) := scanLines rest in (dropCR raw :: ls, e)
      else ([], Some ErrTooLong)
  end.

Definition scan (f : os.File) : list string * option error :=
  match os.holds f with
  | Reg data => scanLines (rawLines data)
  | Dir => ([], Some (PathError "read" (os.Name f)))
  end.

End bufio.

(** ** The program *)

(** The command-line flags, package-level variables of the program. *)
Record flags := Flags {
  keyNames : string;        (* --keys *)
  output : string;          (* --output, empty when not given *)
  paths : list string }.    (* positional arguments *)

(** [errWriter]: writes to the buffer until a write has failed.
    [bytes.Buffer.WriteString] reports no error. *)
Record errWriter := { b : string; err : option error }.

Definition writeString (ew : errWriter) (value : string) : errWriter :=
  match err ew with
  | Some _ => ew
  | None => {| b := b ew +:+ value; err := None |}
  end.

Definition warning : string :=
  "// GENERATED by safekeeper (https://github.com/alexandre-normand/safekeeper, DO NOT EDIT".

(** [writeHeader] writes the header of the file; it reads the flags, not
    the arguments of [run].  The result is the buffer and the error. *)
Definition writeHeader (g : flags) (buffer : string) : string * option error :=
  let ew := {| b := buffer; err := None |} in
  let ew := writeString ew (fmt.Sprintln warning) in
  let ew := writeString ew ("//go:generate safekeeper --keys=" +:+ keyNames g) in
  let ew := if String.eqb (output g) "" then ew
            else writeString ew (" --output=" +:+ output g) in
  let ew := writeString ew (" $GOFILE" +:+ newline) in
  (b ew, err ew).

(** [loadKeyValues] loads the values of the keys, in the order given. *)
Fixpoint loadKeyValuesFrom (keys : list string) (keyValues : gmap string string)
  : proc (gmap string string + error) :=
  match keys with
  | [] => ret (inl keyValues)
  | key :: rest =>
      let* value := os.Getenv key in
      if String.eqb value ""
      then ret (inr (errorsNew ("Environment variable [" +:+ key +:+ "] not found")))
      else loadKeyValuesFrom rest (<[key := value]> keyValues)
  end.

Definition loadKeyValues (keys : list string) : proc (gmap string string + error) :=
  loadKeyValuesFrom keys ∅.

(** [isFile] reports whether the named file is a file (not a directory). *)
Definition isFile (name : string) : proc bool :=
  let* r := os.Stat name in
  match r with
  | inr e => log.Fatal (FatalErr e)
  | inl info => ret (negb (os.IsDir info))
  end.

(** [openTemplateFile] opens the template of the current file. *)
Definition openTemplateFile (path : string) : proc (os.File + error) :=
  os.Open (path +:+ ".safekeeper").

(** Ranging over a map of the program. *)
Definition rangeMap (m : gmap string string) : proc (list (string * string)) :=
  fun '(w, tr) => Ret (maprange w (map_to_list m)) (w, tr).

(** [setupReplacers] creates a string replacer for each key/value pair. *)
Definition setupReplacers (keyValues : gmap string string)
  : proc (list strings.Replacer) :=
  let* entries := rangeMap keyValues in
  ret (map (fun '(key, value) => strings.NewReplacer ("ENV_" +:+ key) value) entries).

(** The test of the loop of [substituteValues]. *)
Definition isDirective (line : string) : bool :=
  strings.Contains line "go:generate" && strings.Contains line "safekeeper".

(** One turn of the loop of [substituteValues]. *)
Definition substituteLine (replacers : list strings.Replacer)
    (buffer line : string) : string :=
  if negb (isDirective line)
  then
    let line := fold_left (fun line replacer => strings.Replace replacer line)
                  replacers line in
    buffer +:+ fmt.Sprintln line
  else buffer.

(** [substituteValues] replaces all occurrences of keys in the template by
    the value of that key. *)
Definition substituteValues (path : string) (keyValues : gmap string string)
    (buffer : string) : proc (string + error) :=
  let* r := openTemplateFile path in
  match r with
  | inr e => log.Fatal (FatalErr e)
  | inl file =>
      let* replacers := setupReplacers keyValues in
      let '(lines, scanErr) := bufio.scan file in
      let buffer := fold_left (substituteLine replacers) lines buffer in
      match scanErr with
      | Some e => ret (inr e)
      | None => ret (inl buffer)
      end
  end.

Definition run (g : flags) (keys out : string) (inputPaths : list string)
  : proc unit :=
  let k := strings.Split keys "," in
  let* r := loadKeyValues k in
  match r with
  | inr e => log.Fatal (FatalErr e)
  | inl keyValues =>
      let* single :=
        match inputPaths with
        | [p] => isFile p
        | _ => ret false
        end in
      match single, inputPaths with
      | true, p :: _ =>
          let '(buffer, e) := writeHeader g "" in
          match e with
          | Some e => log.Fatal (FatalErr e)
          | None =>
              let* r := substituteValues p keyValues buffer in
              match r with
              | inr e => log.Fatal (FatalErr e)
              | inl src =>
                  let out := if String.eqb out "" then p else out in
                  let* e := ioutil.WriteFile out src in
                  match e with
                  | Some e => log.Fatal (FatalfErr "writing output: %s" e)
                  | None => ret tt
                  end
              end
          end
      | _, _ => log.Fatal (FatalMsg "Only single file inputs are currently supported")
      end
  end.

Definition main (g : flags) : proc unit :=
  run g (keyNames g) (output g) (paths g).

(** A run of the program from a fresh process. *)
Definition exec (g : flags) (w : world) : outcome unit := main g (w, []).

(** ** The substitution the specification describes *)

(** The first rule whose token starts the text. *)
Definition matching (rules : list strings.Replacer) (s : string)
  : option strings.Replacer :=
  find (fun r => strings.HasPrefix s (strings.old r)) rules.

(** The specification's reading of the substitution of a line, every
    occurrence of every key's token replaced by that key's value: one pass
    over the line, left to right, in which the rule whose token starts at
    the current position fires and its value is not looked into again. *)
Fixpoint replaceAllFrom (rules : list strings.Replacer) (skip : nat) (s : string)
  : string :=
  match s with
  | EmptyString => EmptyString
  | String c s' =>
      match skip with
      | S k => replaceAllFrom rules k s'
      | O =>
          match matching rules s with
          | Some r =>
              strings.new r +:+
              replaceAllFrom rules (String.length (strings.old r) - 1) s'
          | None => String c (replaceAllFrom rules 0 s')
          end
      end
  end.

Definition replaceAll (rules : list strings.Replacer) (s : string) : string :=
  replaceAllFrom rules 0 s.

(** The replacers applied one after the other, as the loop body does. *)
Definition applyReplacers (replacers : list strings.Replacer) (line : string)
  : string :=
  fold_left (fun line replacer => strings.Replace replacer line) replacers line.

(** ** Overlap of two strings *)

(** One of the two strings is a prefix of the other. *)
Definition comparable (x y : string) : bool :=
  strings.HasPrefix y x || strings.HasPrefix x y.

(** Some non-empty suffix of [x] is comparable with [y]: in some text an
    occurrence of [y] starts inside an occurrence of [x]. *)
Fixpoint meets (x y : string) : bool :=
  match x with
  | EmptyString => false
  | String _ x' => comparable x y || meets x' y
  end.

(** Occurrences of [x] and [y] can share a position of a text. *)
Definition overlaps (x y : string) : bool := meets x y || meets y x.

(** [s] without its first [n] bytes, the Go slice [s[n:]]. *)
Fixpoint from (n : nat) (s : string) : string :=
  match n, s with
  | O, _ => s
  | S _, EmptyString => EmptyString
  | S k, String _ s' => from k s'
  end.

(** The lines of a text, joined again with a line feed after each. *)
Definition unlines (ls : list string) : string :=
  fold_right (fun l acc => l +:+ newline +:+ acc) EmptyString ls.

(** The conditions under which applying [q] after the one-pass
    substitution with [r] among the rules is again a one-pass substitution:
    neither the token nor the value of [r] overlaps the token of [q]. *)
Definition apart (r q : strings.Replacer) : bool :=
  negb (overlaps (strings.old r) (strings.old q)) &&
  negb (overlaps (strings.new r) (strings.old q)).

#[local] Instance Replacer_eq_dec : EqDecision strings.Replacer.
Proof. solve_decision. Defined.

(** ** What a run does, in terms of the world *)

Definition keysOf (g : flags) : list string := strings.Split (keyNames g) ",".

(** The lookup of this key fails the run. *)
Definition missing (w : world) (key : string) : bool :=
  String.eqb (os.lookupEnv w key) "".

Definition notFound (key : string) : error :=
  errorsNew ("Environment variable [" +:+ key +:+ "] not found").

(** The keys looked up: all up to and including the first missing one. *)
Fixpoint checked (w : world) (keys : list string) : list string :=
  match keys with
  | [] => []
  | key :: rest => if missing w key then [key] else key :: checked w rest
  end.

Definition keyValuesFrom (w : world) (keys : list string) (m : gmap string string)
  : gmap string string :=
  fold_left (fun m key => <[key := os.lookupEnv w key]> m) keys m.

(** The rule of a key, and the rules of the keys in the order of the flag. *)
Definition ruleOf (w : world) (key : string) : strings.Replacer :=
  strings.NewReplacer ("ENV_" +:+ key) (os.lookupEnv w key).

Definition rulesOf (g : flags) (w : world) : list strings.Replacer :=
  map (ruleOf w) (keysOf g).

(** The replacers [setupReplacers] builds in this world. *)
Definition replacersOf (g : flags) (w : world) : list strings.Replacer :=
  map (fun '(key, value) => strings.NewReplacer ("ENV_" +:+ key) value)
      (maprange w (map_to_list (keyValuesFrom w (keysOf g) ∅))).

(** The lines of the template that are kept, and what becomes of them. *)
Definition keptLines (lines : list string) : list string :=
  List.filter (fun line => negb (isDirective line)) lines.

Definition bodyLines (replacers : list strings.Replacer) (lines : list string)
  : list string :=
  map (applyReplacers replacers) (keptLines lines).

Definition templateLines (data : string) : list string :=
  map bufio.dropCR (bufio.rawLines data).

Definition header (g : flags) : string := fst (writeHeader g "").

Definition directive (g : flags) : string :=
  "//go:generate safekeeper --keys=" +:+ keyNames g +:+
  (if String.eqb (output g) "" then "" else " --output=" +:+ output g) +:+
  " $GOFILE".

(** The path the result is written to. *)
Definition target (g : flags) (p : string) : string :=
  if String.eqb (output g) "" then p else output g.

Definition traceOf {A} (o : outcome A) : list event :=
  match o with Ret _ (_, tr) | Fatal _ (_, tr) => tr end.

(** The files written and the files opened in a trace. *)
Definition written (tr : list event) : list (string * string) :=
  flat_map (fun ev => match ev with EvWriteFile n d => [(n, d)] | _ => [] end) tr.

Definition opened (tr : list event) : list string :=
  flat_map (fun ev => match ev with EvOpen n => [n] | _ => [] end) tr.

(** ** Conditions on keys and values *)

Definition tokenOf (key : string) : string := "ENV_" +:+ key.

(** No key's token overlaps another key's token. *)
Definition tokensApart (g : flags) : bool :=
  forallb (fun k1 => forallb (fun k2 =>
    String.eqb k1 k2 || negb (overlaps (tokenOf k1) (tokenOf k2)))
    (keysOf g)) (keysOf g).

(** No key's value overlaps another key's token. *)
Definition valuesApart (g : flags) (w : world) : bool :=
  forallb (fun k1 => forallb (fun k2 =>
    String.eqb k1 k2 || negb (overlaps (os.lookupEnv w k1) (tokenOf k2)))
    (keysOf g)) (keysOf g).

(** No key's value overlaps any key's token, its own included. *)
Definition valuesClear (g : flags) (w : world) : bool :=
  forallb (fun k1 => forallb (fun k2 =>
    negb (overlaps (os.lookupEnv w k1) (tokenOf k2)))
    (keysOf g)) (keysOf g).

(** Exactly one path, and it names a file that is not a directory. *)
Definition singleFile (g : flags) (w : world) : bool :=
  match paths g with
  | [p] => match files w p with Some (Reg _) => true | _ => false end
  | _ => false
  end.

(** The conditions under which a run writes its result: every key has a
    value, the one path [p] names a file, its template holds [data] in lines
    the scanner delivers, and the destination may be written. *)
Record Ready (g : flags) (w : world) (p data : string) : Prop := {
  ready_keys : forallb (fun key => negb (missing w key)) (keysOf g) = true;
  ready_paths : paths g = [p];
  ready_file : match files w p with Some (Reg _) => True | _ => False end;
  ready_template : files w (p +:+ ".safekeeper") = Some (Reg data);
  ready_lines : forallb bufio.fits (bufio.rawLines data) = true;
  ready_target : ioutil.canWrite w (target g p) = true }.

(** The state a run that wrote [src] ends in. *)
Definition finish (g : flags) (w : world) (p src : string) : state :=
  (ioutil.store w (target g p) src,
   map EvGetenv (keysOf g) ++
   [EvStat p; EvOpen (p +:+ ".safekeeper"); EvWriteFile (target g p) src]).

(** The text the template body becomes. *)
Definition body (g : flags) (w : world) (data : string) : string :=
  unlines (bodyLines (replacersOf g w) (templateLines data)).

(** ** Lines of a text *)

(** The text holds no line feed. *)
Fixpoint oneLine (s : string) : bool :=
  match s with
  | EmptyString => true
  | String c s' => negb (Ascii.eqb c LF) && oneLine s'
  end.

(** The last byte of the text is a line feed. *)
Fixpoint endsWithLF (s : string) : bool :=
  match s with
  | EmptyString => false
  | String c EmptyString => Ascii.eqb c LF
  | String _ s' => endsWithLF s'
  end.

(** ** Worlds to run the program in *)

Definition inOrder : range_order :=
  RangeOrder (fun l => l) (fun l => Permutation_refl l).

Definition reversed : range_order :=
  RangeOrder (@rev _) (fun l => Permutation_sym (Permutation_rev l)).

Definition lookupIn {A} (l : list (string * A)) (k : string) : option A :=
  match find (fun e => String.eqb (fst e) k) l with
  | Some e => Some (snd e)
  | None => None
  end.

Definition worldWith (env : list (string * string)) (fs : list (string * node))
    (order : range_order) : world :=
  {| environ := lookupIn env; files := lookupIn fs;
     writable := fun _ => true; maprange := order |}.

(** Keys [A] and [B] with the values of the specification's example. *)
Definition plainTemplate : string :=
  "ENV_A-ENV_B" +:+ newline +:+
  "//go:generate safekeeper --keys=A,B $GOFILE" +:+ newline +:+
  "x := ENV_A".

Definition plainWorld (order : range_order) : world :=
  worldWith [("A", "1"); ("B", "2")]
            [("c.go", Reg ""); ("c.go.safekeeper", Reg plainTemplate)] order.

Definition plainFlags : flags :=
  {| keyNames := "A,B"; output := ""; paths := ["c.go"] |}.

(** Two keys whose values are each other's token. *)
Definition crossTemplate : string := "ENV_A ENV_B" +:+ newline.

Definition crossWorld (order : range_order) : world :=
  worldWith [("A", "ENV_B"); ("B", "ENV_A")]
            [("c.go", Reg ""); ("c.go.safekeeper", Reg crossTemplate)] order.




(** A file without a template, and a directory. *)
Definition bareWorld : world :=
  worldWith [("A", "1"); ("B", "2")] [("c.go", Reg ""); ("pkg", Dir)] inOrder.

(** Flags for runs that fail. *)
Definition unsetKeyFlags : flags :=
  {| keyNames := "A,C,B,D"; output := ""; paths := ["c.go"] |}.

Definition emptyKeyFlags : flags :=
  {| keyNames := "A,,B"; output := ""; paths := ["c.go"] |}.

Definition directoryFlags : flags :=
  {| keyNames := "A,B"; output := ""; paths := ["pkg"] |}.

(** What is written in these worlds. *)
Definition plainOutput : string :=
  header plainFlags +:+ body plainFlags (plainWorld inOrder) plainTemplate.

Definition crossOutput (order : range_order) : string :=
  header plainFlags +:+ body plainFlags (crossWorld order) crossTemplate.


(** ** The claims as they are worded, where they fail *)

(** A header of three lines before the body. *)
Definition threeLineHeader (out body : string) : Prop :=
  exists l1 l2 l3, bufio.rawLines out = l1 :: l2 :: l3 :: bufio.rawLines body.

(** The body in which every kept line is the one-pass substitution of the
    template line. *)
Definition specifiedBody (g : flags) (w : world) (data : string) : string :=
  unlines (map (replaceAll (rulesOf g w)) (keptLines (templateLines data))).

(** ** Further worlds and notions *)

Definition worldOf {A} (o : outcome A) : world :=
  match o with Ret _ (w, _) | Fatal _ (w, _) => w end.

(** The values joined without separator, as successive writes put them
    into a buffer. *)
Definition joined (values : list string) : string :=
  fold_right String.append "" values.

(** [n] times the byte [c]. *)
Fixpoint repeated (n : nat) (c : ascii) : string :=
  match n with
  | O => EmptyString
  | S k => String c (repeated k c)
  end.

(** A template whose second line has 65536 bytes. *)
Definition longTemplate : string :=
  "x" +:+ newline +:+ repeated (N.to_nat bufio.MaxScanTokenSize) "a" +:+ newline.

Definition longWorld : world :=
  worldWith [("A", "1"); ("B", "2")]
            [("c.go", Reg ""); ("c.go.safekeeper", Reg longTemplate)] inOrder.

(** The template is a directory. *)
Definition dirTemplateWorld : world :=
  worldWith [("A", "1"); ("B", "2")]
            [("c.go", Reg ""); ("c.go.safekeeper", Dir)] inOrder.



Definition outputFlags : flags :=
  {| keyNames := "A,B"; output := "gen.go"; paths := ["c.go"] |}.

Definition absentFlags : flags :=
  {| keyNames := "A,B"; output := ""; paths := ["nope.go"] |}.

(** A template line that the program copies as it is: no carriage return
    at its end, not a directive, no token of a key in it. *)
Definition verbatimLine (g : flags) (line : string) : bool :=
  String.eqb (bufio.dropCR line) line &&
  negb (isDirective line) &&
  forallb (fun key => negb (strings.Contains line (tokenOf key))) (keysOf g).



(** Conditions of a run in a given world, by computation. *)
Ltac ready := constructor; vm_compute; (reflexivity || exact I).

(** * Lemmas *)

Example split_ex : strings.Split "A,,B," "," = ["A"; ""; "B"; ""].
Proof. reflexivity. Qed.

Example split_empty_ex : strings.Split "" "," = [""].
Proof. reflexivity. Qed.

Example overlaps_ex :
  overlaps "ENV_A" "ENV_B" = false /\ overlaps "ENV_A" "ENV_AB" = true /\
  overlaps "1" "ENV_A" = false /\ overlaps "K" "ENV_K" = true /\
  overlaps "xE" "ENV_K" = true.
Proof. repeat split. Qed.

(** The example of the specification: [FOO=bar] turns [x := ENV_FOO] into
    [x := bar]. *)
Example replace_foo_ex :
  applyReplacers [strings.NewReplacer "ENV_FOO" "bar"] "x := ENV_FOO" = "x := bar".
Proof. reflexivity. Qed.

Example replace_ex :
  strings.Replace (strings.NewReplacer "ENV_A" "1") "xENV_AENV_A-ENV_" = "x11-ENV_".
Proof. reflexivity. Qed.

(** ** Facts about strings *)

Section StringFacts.

Import strings.

Lemma append_assoc (x y z : string) : (x +:+ y) +:+ z = x +:+ (y +:+ z).
Proof. induction x as [|a x IH]; simpl; [reflexivity | now rewrite IH]. Qed.

Lemma append_empty_r (x : string) : x +:+ "" = x.
Proof. induction x as [|a x IH]; simpl; [reflexivity | now rewrite IH]. Qed.

Lemma HasPrefix_empty (s : string) : HasPrefix s "" = true.
Proof. now destruct s. Qed.

Lemma HasPrefix_app (p s : string) : HasPrefix (p +:+ s) p = true.
Proof.
  induction p as [|a p IH]; simpl; [apply HasPrefix_empty |].
  now rewrite Ascii.eqb_refl.
Qed.

Lemma HasPrefix_split (s p : string) :
  HasPrefix s p = true -> s = p +:+ from (String.length p) s.
Proof.
  revert s; induction p as [|a p IH]; intros [|c s]; simpl; try easy.
  intros H; apply andb_prop in H as [Hc Hp].
  apply Ascii.eqb_eq in Hc; subst c. now rewrite <- IH.
Qed.

Lemma from_app (p s : string) : from (String.length p) (p +:+ s) = s.
Proof. induction p as [|a p IH]; simpl; [now destruct s | exact IH]. Qed.

Lemma comparable_sym (x y : string) : comparable x y = comparable y x.
Proof. unfold comparable; apply orb_comm. Qed.

(** Two prefixes of one text are comparable. *)
Lemma HasPrefix_app_comparable (u x t : string) :
  HasPrefix (u +:+ x) t = true -> comparable u t = true.
Proof.
  unfold comparable.
  revert t; induction u as [|a u IH]; intros t H; simpl.
  - now rewrite HasPrefix_empty.
  - destruct t as [|c t]; simpl in *; [reflexivity |].
    apply andb_prop in H as [Hc Ht].
    rewrite Hc, (Ascii.eqb_sym a c), Hc; simpl. now apply IH.
Qed.

Lemma HasPrefix_both_comparable (s x y : string) :
  HasPrefix s x = true -> HasPrefix s y = true -> comparable x y = true.
Proof.
  intros Hx Hy. apply HasPrefix_split in Hx. rewrite Hx in Hy.
  now apply HasPrefix_app_comparable in Hy.
Qed.

Lemma meets_head (x y : string) :
  x <> "" -> meets x y = false -> comparable x y = false.
Proof.
  destruct x; [easy |]; simpl; intros _ H.
  now apply orb_false_elim in H.
Qed.

Lemma meets_tail (a : ascii) (x y : string) :
  meets (String a x) y = false -> meets x y = false.
Proof. simpl; intros H; now apply orb_false_elim in H. Qed.

(** No occurrence of [t] starts inside a leading [n] that [t] cannot
    meet. *)
Lemma Contains_cons (c : ascii) (s t : string) :
  Contains (String c s) t = HasPrefix (String c s) t || Contains s t.
Proof. reflexivity. Qed.

Lemma Contains_app_clear (n y t : string) :
  meets n t = false -> Contains (n +:+ y) t = Contains y t.
Proof.
  induction n as [|a n IH]; intros H; [reflexivity |].
  simpl in H. apply orb_false_elim in H as [Hc Hm].
  change (String a n +:+ y) with (String a (n +:+ y)).
  rewrite Contains_cons, (IH Hm).
  destruct (HasPrefix (String a (n +:+ y)) t) eqn:Hp; [| reflexivity].
  apply (HasPrefix_app_comparable (String a n) y t) in Hp. congruence.
Qed.

Lemma Contains_tail (c : ascii) (s t : string) :
  Contains (String c s) t = false -> Contains s t = false.
Proof. simpl; intros H; now apply orb_false_elim in H. Qed.

Lemma Contains_head (s t : string) :
  Contains s t = false -> HasPrefix s t = false.
Proof. destruct s; simpl; [easy |]. intros H; now apply orb_false_elim in H. Qed.

End StringFacts.

(** ** Facts about replacing *)

Section ReplaceFacts.

Import strings.

Variable R : list Replacer.

(** Skipping [k] bytes and scanning on is scanning the rest. *)
Lemma replaceAllFrom_skip (k : nat) (s : string) :
  replaceAllFrom R k s = replaceAll R (from k s).
Proof.
  revert k; induction s as [|c s IH]; intros [|k]; try reflexivity.
  simpl. apply IH.
Qed.

Lemma replaceAll_cons (c : ascii) (s : string) :
  replaceAll R (String c s) =
  match matching R (String c s) with
  | Some r => new r +:+ replaceAll R (from (String.length (old r) - 1) s)
  | None => String c (replaceAll R s)
  end.
Proof.
  unfold replaceAll; cbn [replaceAllFrom].
  destruct (matching R (String c s)); [| reflexivity].
  now rewrite replaceAllFrom_skip.
Qed.

Lemma matching_Some (s : string) (r : Replacer) :
  matching R s = Some r -> In r R /\ HasPrefix s (old r) = true.
Proof. apply find_some. Qed.

Lemma matching_None (s : string) (r : Replacer) :
  matching R s = None -> In r R -> HasPrefix s (old r) = false.
Proof. intros H Hr. exact (find_none _ _ H r Hr). Qed.

(** A text that no value can meet, found at the head of the result, was
    at the head of the input. *)
Lemma HasPrefix_replaceAll_inv (u s : string) :
  (forall r, In r R -> meets u (new r) = false) ->
  HasPrefix (replaceAll R s) u = true -> HasPrefix s u = true.
Proof.
  revert s; induction u as [|a u IH]; intros s Hm H.
  - apply HasPrefix_empty.
  - destruct s as [|c s]; [discriminate H |].
    rewrite replaceAll_cons in H.
    destruct (matching R (String c s)) as [r|] eqn:Hr.
    + apply matching_Some in Hr as [Hin _].
      apply HasPrefix_app_comparable in H.
      specialize (Hm r Hin). apply meets_head in Hm; [| easy].
      rewrite comparable_sym in Hm. congruence.
    + simpl in H |- *. apply andb_prop in H as [Hc Hu].
      rewrite Hc; simpl. apply IH; [| exact Hu].
      intros r Hin. exact (meets_tail _ _ _ (Hm r Hin)).
Qed.

(** A leading text that meets no token passes through unchanged. *)
Lemma replaceAll_app_clear (t x : string) :
  (forall r, In r R -> meets t (old r) = false) ->
  replaceAll R (t +:+ x) = t +:+ replaceAll R x.
Proof.
  induction t as [|a t IH]; intros Hm; [reflexivity |].
  change (String a t +:+ x) with (String a (t +:+ x)).
  rewrite replaceAll_cons.
  destruct (matching R (String a (t +:+ x))) as [r|] eqn:Hr.
  - apply matching_Some in Hr as [Hin Hp].
    apply (HasPrefix_app_comparable (String a t) x) in Hp.
    specialize (Hm r Hin). apply meets_head in Hm; [| easy]. congruence.
  - simpl. f_equal. apply IH.
    intros r Hin. exact (meets_tail _ _ _ (Hm r Hin)).
Qed.

Lemma matching_snoc (q : Replacer) (s : string) :
  matching (R ++ [q]) s =
  match matching R s with
  | Some r => Some r
  | None => if HasPrefix s (old q) then Some q else None
  end.
Proof.
  unfold matching. induction R as [|r R' IH]; simpl; [reflexivity |].
  destruct (HasPrefix s (old r)); [reflexivity | exact IH].
Qed.

End ReplaceFacts.

Section ReplaceOne.

Import strings.

Variable q : Replacer.

(** The replacer of one rule is the one-pass substitution of that rule. *)
Lemma replaceFrom_single (k : nat) (s : string) :
  replaceFrom q k s = replaceAllFrom [q] k s.
Proof.
  revert k; induction s as [|c s IH]; intros [|k]; try reflexivity.
  - cbn [replaceFrom replaceAllFrom]; unfold matching; cbn [find].
    destruct (HasPrefix (String c s) (old q)); now rewrite IH.
  - apply IH.
Qed.

Lemma Replace_single (s : string) : Replace q s = replaceAll [q] s.
Proof. apply replaceFrom_single. Qed.

Lemma Replace_hit (y : string) :
  old q <> "" -> Replace q (old q +:+ y) = new q +:+ Replace q y.
Proof.
  intros Hq. rewrite !Replace_single.
  destruct (old q) as [|a o] eqn:Ho; [easy |].
  change (String a o +:+ y) with (String a (o +:+ y)).
  rewrite replaceAll_cons. unfold matching; simpl.
  rewrite Ho. simpl. rewrite Ascii.eqb_refl, HasPrefix_app; simpl.
  rewrite Ho; simpl. now rewrite Nat.sub_0_r, from_app.
Qed.

Lemma Replace_miss (c : ascii) (y : string) :
  HasPrefix (String c y) (old q) = false ->
  Replace q (String c y) = String c (Replace q y).
Proof.
  intros H. rewrite !Replace_single, replaceAll_cons.
  unfold matching; cbn [find]. now rewrite H.
Qed.

Lemma Replace_app_clear (n x : string) :
  meets n (old q) = false -> Replace q (n +:+ x) = n +:+ Replace q x.
Proof.
  intros H. rewrite !Replace_single. apply replaceAll_app_clear.
  intros r [<- | []]. exact H.
Qed.

End ReplaceOne.

Section Sequential.

Import strings.

Lemma apart_elim (r q : Replacer) :
  apart r q = true ->
  meets (old q) (old r) = false /\
  meets (new r) (old q) = false /\ meets (old q) (new r) = false.
Proof.
  unfold apart, overlaps; intros H.
  apply andb_prop in H as [H1 H2].
  apply negb_true_iff, orb_false_elim in H1 as [_ H1].
  apply negb_true_iff, orb_false_elim in H2 as [H2 H3]. auto.
Qed.

Lemma Replace_after_replaceAll (R : list Replacer) (q : Replacer) (k : nat) (s : string) :
  old q <> "" ->
  (forall r, In r R -> apart r q = true) ->
  Replace q (replaceAllFrom R k s) = replaceAllFrom (R ++ [q]) k s.
Proof.
  intros Hq Hap. revert k; induction s as [|c s IH]; intros k; [reflexivity |].
  destruct k as [|k]; [| simpl; apply IH].
  cbn [replaceAllFrom]. rewrite matching_snoc.
  destruct (matching R (String c s)) as [r|] eqn:Hr.
  - apply matching_Some in Hr as [Hin _].
    destruct (apart_elim _ _ (Hap r Hin)) as (_ & Hn & _).
    now rewrite Replace_app_clear, IH.
  - destruct (HasPrefix (String c s) (old q)) eqn:Hp.
    + rewrite <- IH.
      assert (Hs : String c (replaceAllFrom R 0 s) =
                   old q +:+ replaceAllFrom R (String.length (old q) - 1) s).
      { transitivity (replaceAll R (String c s)).
        - now rewrite replaceAll_cons, Hr.
        - rewrite (HasPrefix_split _ _ Hp) at 1.
          rewrite replaceAll_app_clear, replaceAllFrom_skip.
          + destruct (old q); [easy |]. simpl. now rewrite Nat.sub_0_r.
          + intros r Hin. now destruct (apart_elim _ _ (Hap r Hin)). }
      rewrite Hs. now apply Replace_hit.
    + rewrite <- IH. apply Replace_miss.
      destruct (HasPrefix (String c (replaceAllFrom R 0 s)) (old q)) eqn:Hp';
        [| reflexivity].
      assert (H : HasPrefix (replaceAll R (String c s)) (old q) = true)
        by now rewrite replaceAll_cons, Hr.
      apply HasPrefix_replaceAll_inv in H; [congruence |].
      intros r Hin. now destruct (apart_elim _ _ (Hap r Hin)) as (_ & _ & ?).
Qed.

Lemma replaceAll_nil (s : string) : replaceAll [] s = s.
Proof.
  induction s as [|c s IH]; [reflexivity |].
  rewrite replaceAll_cons; simpl. now rewrite IH.
Qed.

(** Replacers of which every later one is apart from every earlier one
    compute, applied in turn, the one-pass substitution. *)
Lemma applyReplacers_replaceAll (rs : list Replacer) (line : string) :
  (forall r, In r rs -> old r <> "") ->
  (forall r q, In r rs -> In q rs -> r <> q -> apart r q = true) ->
  NoDup rs ->
  applyReplacers rs line = replaceAll rs line.
Proof.
  unfold applyReplacers.
  induction rs as [|q rs IH] using rev_ind; intros Hne Hap Hnd;
    [simpl; now rewrite replaceAll_nil |].
  rewrite fold_left_app; simpl.
  apply NoDup_app in Hnd as (Hnd & Hfresh & _).
  rewrite IH.
  - apply Replace_after_replaceAll.
    + apply Hne, in_or_app; right; now left.
    + intros r Hin. apply Hap.
      * apply in_or_app; now left.
      * apply in_or_app; right; now left.
      * intros ->. apply list_elem_of_In in Hin.
        apply (Hfresh q Hin). now left.
  - intros r Hin. apply Hne, in_or_app; now left.
  - intros r p Hr Hp. apply Hap; apply in_or_app; now left.
  - exact Hnd.
Qed.

End Sequential.

Section Occurrences.

Import strings.

Lemma overlaps_elim (x y : string) :
  overlaps x y = false -> meets x y = false /\ meets y x = false.
Proof. unfold overlaps; intros H; now apply orb_false_elim in H. Qed.

(** Substituting creates no occurrence of a text that no value
    overlaps. *)
Lemma Contains_replaceAllFrom_keep (R : list Replacer) (t : string) (k : nat) (s : string) :
  (forall r, In r R -> overlaps (new r) t = false) ->
  Contains s t = false -> Contains (replaceAllFrom R k s) t = false.
Proof.
  intros Hov. revert k; induction s as [|c s IH]; intros k H; [exact H |].
  destruct k as [|k]; [| simpl; apply IH; exact (Contains_tail _ _ _ H)].
  cbn [replaceAllFrom].
  destruct (matching R (String c s)) as [r|] eqn:Hr.
  - apply matching_Some in Hr as [Hin _].
    destruct (overlaps_elim _ _ (Hov r Hin)) as [Hm _].
    rewrite Contains_app_clear by exact Hm.
    apply IH; exact (Contains_tail _ _ _ H).
  - rewrite Contains_cons, (IH 0 (Contains_tail _ _ _ H)), orb_false_r.
    destruct (HasPrefix (String c (replaceAllFrom R 0 s)) t) eqn:Hp;
      [| reflexivity].
    assert (Hp' : HasPrefix (replaceAll R (String c s)) t = true)
      by now rewrite replaceAll_cons, Hr.
    apply HasPrefix_replaceAll_inv in Hp'.
    + apply Contains_head in H. congruence.
    + intros r Hin. now destruct (overlaps_elim _ _ (Hov r Hin)).
Qed.

(** Substituting removes every occurrence of a token that no value
    overlaps. *)
Lemma Contains_replaceAllFrom_own (R : list Replacer) (q : Replacer) (k : nat) (s : string) :
  In q R -> old q <> "" ->
  (forall r, In r R -> overlaps (new r) (old q) = false) ->
  Contains (replaceAllFrom R k s) (old q) = false.
Proof.
  intros Hq Hne Hov. revert k; induction s as [|c s IH]; intros k.
  - simpl. destruct (old q); [easy | reflexivity].
  - destruct k as [|k]; [| simpl; apply IH].
    cbn [replaceAllFrom].
    destruct (matching R (String c s)) as [r|] eqn:Hr.
    + apply matching_Some in Hr as [Hin _].
      destruct (overlaps_elim _ _ (Hov r Hin)) as [Hm _].
      rewrite Contains_app_clear by exact Hm. apply IH.
    + rewrite Contains_cons, (IH 0), orb_false_r.
      destruct (HasPrefix (String c (replaceAllFrom R 0 s)) (old q)) eqn:Hp;
        [| reflexivity].
      assert (Hp' : HasPrefix (replaceAll R (String c s)) (old q) = true)
        by now rewrite replaceAll_cons, Hr.
      apply HasPrefix_replaceAll_inv in Hp'.
      * rewrite (matching_None R _ q Hr Hq) in Hp'. discriminate.
      * intros r Hin. now destruct (overlaps_elim _ _ (Hov r Hin)).
Qed.

Lemma applyReplacers_keep (rs : list Replacer) (t x : string) :
  (forall r, In r rs -> overlaps (new r) t = false) ->
  Contains x t = false -> Contains (applyReplacers rs x) t = false.
Proof.
  unfold applyReplacers. revert x; induction rs as [|r rs IH]; intros x Hov H;
    [exact H |].
  simpl. apply IH.
  - intros r' Hin. apply Hov. now right.
  - rewrite Replace_single. apply Contains_replaceAllFrom_keep; [| exact H].
    intros r' [<- | []]. apply Hov. now left.
Qed.

(** After all replacers have run, no token that no value overlaps is
    left, whatever the order of the replacers. *)
Lemma applyReplacers_clean (rs : list Replacer) (q : Replacer) (line : string) :
  In q rs -> old q <> "" ->
  (forall r, In r rs -> overlaps (new r) (old q) = false) ->
  Contains (applyReplacers rs line) (old q) = false.
Proof.
  revert line; induction rs as [|r rs IH]; intros line Hq Hne Hov; [easy |].
  destruct Hq as [-> | Hq].
  - change (applyReplacers (q :: rs) line)
      with (applyReplacers rs (Replace q line)).
    apply applyReplacers_keep.
    + intros r' Hin. apply Hov. now right.
    + rewrite Replace_single. apply Contains_replaceAllFrom_own.
      * now left.
      * exact Hne.
      * intros r' [<- | []]. apply Hov. now left.
  - change (applyReplacers (r :: rs) line)
      with (applyReplacers rs (Replace r line)).
    apply IH; [exact Hq | exact Hne |].
    intros r' Hin. apply Hov. now right.
Qed.

End Occurrences.

Section RuleOrder.

Import strings.

Lemma find_same_elements {A : Type} (P : A -> bool) (l l' : list A) :
  (forall x, In x l <-> In x l') ->
  (forall x y, In x l -> In y l -> P x = true -> P y = true -> x = y) ->
  find P l = find P l'.
Proof.
  intros Hsame Huniq.
  destruct (find P l) as [x|] eqn:Hx, (find P l') as [y|] eqn:Hy; try reflexivity.
  - apply find_some in Hx as [Hx1 Hx2], Hy as [Hy1 Hy2].
    f_equal. apply Huniq; auto. now apply Hsame.
  - apply find_some in Hx as [Hx1 Hx2].
    apply Hsame in Hx1. now rewrite (find_none _ _ Hy x Hx1) in Hx2.
  - apply find_some in Hy as [Hy1 Hy2].
    apply Hsame in Hy1. now rewrite (find_none _ _ Hx y Hy1) in Hy2.
Qed.

(** Rules that are pairwise apart: at most one matches at a position. *)
Lemma matching_unique (R : list Replacer) (s : string) (r q : Replacer) :
  (forall r, In r R -> old r <> "") ->
  (forall r q, In r R -> In q R -> r <> q -> apart r q = true) ->
  In r R -> In q R ->
  HasPrefix s (old r) = true -> HasPrefix s (old q) = true -> r = q.
Proof.
  intros Hne Hap Hr Hq Hpr Hpq.
  destruct (decide (r = q)) as [| Hrq]; [assumption | exfalso].
  specialize (Hap r q Hr Hq Hrq). unfold apart in Hap.
  apply andb_prop in Hap as [Hap _].
  apply negb_true_iff, overlaps_elim in Hap as [Hap _].
  apply meets_head in Hap; [| now apply Hne].
  rewrite (HasPrefix_both_comparable s _ _ Hpr Hpq) in Hap. discriminate.
Qed.

(** The one-pass substitution depends on the set of rules only. *)
Lemma replaceAll_same_rules (R R' : list Replacer) (s : string) :
  (forall r, In r R -> old r <> "") ->
  (forall r q, In r R -> In q R -> r <> q -> apart r q = true) ->
  (forall r, In r R <-> In r R') ->
  replaceAll R s = replaceAll R' s.
Proof.
  intros Hne Hap Hsame. unfold replaceAll. generalize 0 as k.
  induction s as [|c s IH]; intros k; [reflexivity |].
  destruct k as [|k]; [| simpl; apply IH].
  cbn [replaceAllFrom].
  assert (Hm : matching R (String c s) = matching R' (String c s)).
  { apply find_same_elements; [exact Hsame |].
    intros x y Hx Hy Hpx Hpy. now apply (matching_unique R (String c s)). }
  rewrite Hm. destruct (matching R' (String c s)); now rewrite IH.
Qed.

End RuleOrder.

Section RunFacts.

Import strings.

Lemma writeHeader_ok (g : flags) (buffer : string) :
  writeHeader g buffer =
  (buffer +:+ fmt.Sprintln warning +:+ directive g +:+ newline, None).
Proof.
  unfold writeHeader, directive, writeString, fmt.Sprintln; cbn [b err].
  destruct (String.eqb (output g) ""); cbn [b err]; f_equal;
    rewrite !append_assoc; reflexivity.
Qed.

Lemma header_eq (g : flags) :
  header g = warning +:+ newline +:+ directive g +:+ newline.
Proof.
  unfold header. rewrite writeHeader_ok. unfold fmt.Sprintln; simpl.
  now rewrite append_assoc.
Qed.

Lemma loadKeyValuesFrom_spec (keys : list string) (m : gmap string string)
    (w : world) (tr : list event) :
  loadKeyValuesFrom keys m (w, tr) =
  Ret match find (missing w) keys with
      | Some key => inr (notFound key)
      | None => inl (keyValuesFrom w keys m)
      end (w, tr ++ map EvGetenv (checked w keys)).
Proof.
  revert m tr; induction keys as [|key keys IH]; intros m tr; simpl.
  - now rewrite app_nil_r.
  - unfold bind, os.Getenv, syscall; simpl. fold (missing w key).
    destruct (missing w key); [reflexivity |].
    now rewrite IH, <- app_assoc.
Qed.

Lemma substitute_loop (rs : list Replacer) (lines : list string) (buffer : string) :
  fold_left (substituteLine rs) lines buffer =
  buffer +:+ unlines (bodyLines rs lines).
Proof.
  unfold bodyLines, keptLines.
  revert buffer; induction lines as [|l lines IH]; intros buffer; simpl.
  - now rewrite append_empty_r.
  - rewrite IH. unfold substituteLine, fmt.Sprintln.
    destruct (isDirective l); simpl; [reflexivity |].
    fold (applyReplacers rs l). now rewrite !append_assoc.
Qed.

Lemma scanLines_fits (raws : list string) :
  forallb bufio.fits raws = true ->
  bufio.scanLines raws = (map bufio.dropCR raws, None).
Proof.
  induction raws as [|raw raws IH]; simpl; [reflexivity |].
  intros H; apply andb_prop in H as [Hf Hr]. now rewrite Hf, IH.
Qed.

Lemma scanLines_error (raws : list string) :
  forallb bufio.fits raws = false -> snd (bufio.scanLines raws) = Some ErrTooLong.
Proof.
  induction raws as [|raw raws IH]; simpl; [discriminate |].
  destruct (bufio.fits raw); simpl; [| reflexivity].
  intros H. specialize (IH H). now destruct (bufio.scanLines raws).
Qed.

(** Every outcome of a run. *)
Lemma exec_cases (g : flags) (w : world) :
  exec g w =
  let env := map EvGetenv (checked w (keysOf g)) in
  match find (missing w) (keysOf g) with
  | Some key => Fatal (FatalErr (notFound key)) (w, env)
  | None =>
      match paths g with
      | [p] =>
          let tpl := p +:+ ".safekeeper" in
          match files w p with
          | None => Fatal (FatalErr (PathError "stat" p)) (w, env ++ [EvStat p])
          | Some Dir =>
              Fatal (FatalMsg "Only single file inputs are currently supported")
                    (w, env ++ [EvStat p])
          | Some (Reg _) =>
              match files w tpl with
              | None =>
                  Fatal (FatalErr (PathError "open" tpl))
                        (w, env ++ [EvStat p; EvOpen tpl])
              | Some n =>
                  match bufio.scan {| os.Name := tpl; os.holds := n |} with
                  | (_, Some e) => Fatal (FatalErr e) (w, env ++ [EvStat p; EvOpen tpl])
                  | (lines, None) =>
                      let src := header g +:+ unlines (bodyLines (replacersOf g w) lines) in
                      let tr := env ++ [EvStat p; EvOpen tpl; EvWriteFile (target g p) src] in
                      if ioutil.canWrite w (target g p)
                      then Ret tt (ioutil.store w (target g p) src, tr)
                      else Fatal (FatalfErr "writing output: %s"
                                    (PathError "open" (target g p))) (w, tr)
                  end
              end
          end
      | _ => Fatal (FatalMsg "Only single file inputs are currently supported") (w, env)
      end
  end.
Proof.
  unfold exec, main, run. rewrite writeHeader_ok.
  unfold bind, loadKeyValues.
  rewrite loadKeyValuesFrom_spec. fold (keysOf g). simpl.
  destruct (find (missing w) (keysOf g)); [reflexivity |].
  destruct (paths g) as [|p [|p' ps]]; try reflexivity.
  unfold isFile, bind, os.Stat, syscall; simpl.
  destruct (files w p) as [[|d]|] eqn:Hp; simpl; try reflexivity.
  unfold substituteValues, openTemplateFile, bind, os.Open, syscall; simpl.
  destruct (files w (p +:+ ".safekeeper")) as [n|] eqn:Ht; simpl;
    [| now rewrite <- app_assoc].
  fold (replacersOf g w).
  destruct (bufio.scan _) as [lines [e|]]; simpl;
    [now rewrite <- app_assoc |].
  unfold ioutil.WriteFile, syscall, ret; simpl.
  rewrite substitute_loop, header_eq. fold (target g p).
  unfold fmt.Sprintln; simpl. rewrite !append_assoc.
  destruct (ioutil.canWrite w (target g p)); simpl;
    now rewrite <- !app_assoc.
Qed.

End RunFacts.

Section KeyFacts.

Import strings.

Variables (g : flags) (w : world).

Lemma keyValuesFrom_notIn (keys : list string) (m : gmap string string) (k : string) :
  ~ In k keys -> keyValuesFrom w keys m !! k = m !! k.
Proof.
  unfold keyValuesFrom.
  revert m; induction keys as [|a keys IH]; intros m Hk; [reflexivity |].
  simpl. rewrite IH by (intros H; apply Hk; now right).
  apply lookup_insert_ne. intros ->. apply Hk. now left.
Qed.

Lemma keyValuesFrom_In (keys : list string) (m : gmap string string) (k : string) :
  In k keys -> keyValuesFrom w keys m !! k = Some (os.lookupEnv w k).
Proof.
  revert m; induction keys as [|a keys IH]; intros m Hk; [easy |].
  destruct (in_dec string_dec k keys) as [Hin | Hout].
  - apply (IH _ Hin).
  - destruct Hk as [-> | Hk]; [| contradiction].
    change (keyValuesFrom w (k :: keys) m)
      with (keyValuesFrom w keys (<[k := os.lookupEnv w k]> m)).
    rewrite keyValuesFrom_notIn by exact Hout.
    apply lookup_insert_eq.
Qed.

(** The replacers are the rules of the keys, in some order. *)
Lemma replacersOf_rulesOf (r : Replacer) :
  In r (replacersOf g w) <-> In r (rulesOf g w).
Proof.
  unfold replacersOf, rulesOf. rewrite !in_map_iff. split.
  - intros ([k v] & <- & Hin).
    apply (Permutation_in _ (visit_perm _ _)) in Hin.
    apply list_elem_of_In, elem_of_map_to_list in Hin.
    destruct (in_dec string_dec k (keysOf g)) as [Hk | Hk].
    + rewrite (keyValuesFrom_In _ _ _ Hk) in Hin.
      injection Hin as <-. exists k. split; [reflexivity | exact Hk].
    + rewrite (keyValuesFrom_notIn _ _ _ Hk), lookup_empty in Hin.
      discriminate.
  - intros (k & <- & Hk). exists (k, os.lookupEnv w k). split; [reflexivity |].
    apply (Permutation_in _ (Permutation_sym (visit_perm _ _))).
    apply list_elem_of_In, elem_of_map_to_list.
    now apply keyValuesFrom_In.
Qed.

Lemma NoDup_replacersOf : NoDup (replacersOf g w).
Proof.
  unfold replacersOf.
  assert (Hnd : NoDup (maprange w (map_to_list (keyValuesFrom w (keysOf g) ∅)))).
  { rewrite (visit_perm (maprange w)). apply NoDup_map_to_list. }
  revert Hnd. generalize (maprange w (map_to_list (keyValuesFrom w (keysOf g) ∅))).
  intros l; induction l as [|[k v] l IH]; intros Hnd; simpl; [constructor |].
  apply NoDup_cons in Hnd as [Hx Hnd]. apply NoDup_cons; split; [| now apply IH].
  intros Hin. apply list_elem_of_In, in_map_iff in Hin as ([k' v'] & Heq & Hin).
  injection Heq as -> ->. now apply Hx, list_elem_of_In.
Qed.

Lemma old_replacersOf (r : Replacer) : In r (replacersOf g w) -> old r <> "".
Proof.
  intros Hr. apply replacersOf_rulesOf, in_map_iff in Hr as (k & <- & _).
  discriminate.
Qed.

Lemma apart_replacersOf (r q : Replacer) :
  tokensApart g = true -> valuesApart g w = true ->
  In r (replacersOf g w) -> In q (replacersOf g w) -> r <> q ->
  apart r q = true.
Proof.
  unfold tokensApart, valuesApart. rewrite !forallb_forall.
  intros Ht Hv Hr Hq Hrq.
  apply replacersOf_rulesOf, in_map_iff in Hr as (k1 & <- & Hk1).
  apply replacersOf_rulesOf, in_map_iff in Hq as (k2 & <- & Hk2).
  specialize (Ht k1 Hk1). specialize (Hv k1 Hk1).
  rewrite forallb_forall in Ht, Hv.
  specialize (Ht k2 Hk2). specialize (Hv k2 Hk2).
  destruct (String.eqb_spec k1 k2) as [-> | _]; [contradiction |].
  unfold apart, ruleOf; cbn [old new]. simpl in Ht, Hv.
  fold (tokenOf k1); fold (tokenOf k2). now rewrite Ht, Hv.
Qed.

(** When tokens and values are apart, the replacers compute, in whatever
    order the map is ranged over, the one-pass substitution of the rules
    in the order of the flag. *)
Lemma applyReplacers_rulesOf (line : string) :
  tokensApart g = true -> valuesApart g w = true ->
  applyReplacers (replacersOf g w) line = replaceAll (rulesOf g w) line.
Proof.
  intros Ht Hv.
  rewrite applyReplacers_replaceAll.
  - apply replaceAll_same_rules.
    + apply old_replacersOf.
    + intros r q. now apply apart_replacersOf.
    + apply replacersOf_rulesOf.
  - apply old_replacersOf.
  - intros r q. now apply apart_replacersOf.
  - apply NoDup_replacersOf.
Qed.

Lemma checked_all (keys : list string) :
  forallb (fun key => negb (missing w key)) keys = true ->
  find (missing w) keys = None /\ checked w keys = keys.
Proof.
  induction keys as [|k keys IH]; simpl; [easy |].
  intros H; apply andb_prop in H as [Hk Hr].
  apply negb_true_iff in Hk. rewrite Hk.
  destruct (IH Hr) as [-> ->]. easy.
Qed.

Lemma exec_ready (p data : string) :
  Ready g w p data -> exec g w = Ret tt (finish g w p (header g +:+ body g w data)).
Proof.
  intros [Hk Hp Hf Ht Hl Hw]. rewrite exec_cases.
  destruct (checked_all _ Hk) as [-> ->]. cbv zeta. rewrite Hp.
  destruct (files w p) as [[|d]|]; try contradiction.
  rewrite Ht. unfold bufio.scan; cbn [os.holds].
  rewrite (scanLines_fits _ Hl). fold (templateLines data). fold (body g w data).
  now rewrite Hw.
Qed.

Lemma exec_ret_ready (st : state) :
  exec g w = Ret tt st -> exists p data, Ready g w p data.
Proof.
  rewrite exec_cases. cbv zeta.
  destruct (find (missing w) (keysOf g)) eqn:Hfind; [discriminate |].
  destruct (paths g) as [|p [|p' ps]] eqn:Hp; try discriminate.
  destruct (files w p) as [[|d]|] eqn:Hf; try discriminate.
  destruct (files w (p +:+ ".safekeeper")) as [[|data]|] eqn:Ht; try discriminate.
  unfold bufio.scan; cbn [os.holds].
  destruct (forallb bufio.fits (bufio.rawLines data)) eqn:Hl.
  - rewrite (scanLines_fits _ Hl).
    destruct (ioutil.canWrite w (target g p)) eqn:Hw; [| discriminate].
    intros _. exists p, data. split; auto.
    + apply forallb_forall. intros k Hk. apply negb_true_iff.
      exact (find_none _ _ Hfind k Hk).
    + now rewrite Hf.
  - apply scanLines_error in Hl.
    destruct (bufio.scanLines (bufio.rawLines data)) as [ls e]; simpl in Hl.
    subst e. discriminate.
Qed.

End KeyFacts.

Section LineFacts.

Import strings bufio.

Lemma oneLine_app (x y : string) : oneLine (x +:+ y) = oneLine x && oneLine y.
Proof.
  induction x as [|c x IH]; simpl; [reflexivity |].
  now rewrite IH, andb_assoc.
Qed.

Lemma rawLines_line (l rest : string) :
  oneLine l = true -> rawLines (l +:+ newline +:+ rest) = l :: rawLines rest.
Proof.
  induction l as [|c l IH]; intros H; [reflexivity |].
  simpl in H. apply andb_prop in H as [Hc Hl]. apply negb_true_iff in Hc.
  change (String c l +:+ newline +:+ rest)
    with (String c (l +:+ newline +:+ rest)).
  cbn [rawLines]. now rewrite Hc, (IH Hl).
Qed.

Lemma unlines_ends (y : string) (ls : list string) :
  exists x, y +:+ newline +:+ unlines ls = x +:+ newline.
Proof.
  revert y; induction ls as [|l ls IH]; intros y.
  - exists y. reflexivity.
  - destruct (IH (y +:+ newline +:+ l)) as [x Hx]. exists x.
    rewrite <- Hx. simpl. now rewrite !append_assoc.
Qed.

(** What the program writes ends with a line feed. *)
Lemma generated_ends (g : flags) (ls : list string) :
  exists x, header g +:+ unlines ls = x +:+ newline.
Proof.
  rewrite header_eq.
  destruct (unlines_ends (warning +:+ newline +:+ directive g) ls) as [x Hx].
  exists x. rewrite <- Hx. now rewrite !append_assoc.
Qed.

(** A last line without a line feed is read like one with it. *)
Lemma rawLines_unterminated (d : string) :
  d <> "" -> endsWithLF d = false -> rawLines (d +:+ newline) = rawLines d.
Proof.
  induction d as [|c d IH]; [easy |]; intros _ H.
  destruct d as [|c' d].
  - simpl in H |- *. now rewrite H.
  - change (endsWithLF (String c (String c' d)))
      with (endsWithLF (String c' d)) in H.
    change (String c (String c' d) +:+ newline)
      with (String c (String c' d +:+ newline)).
    cbn [rawLines]. now rewrite (IH ltac:(discriminate) H).
Qed.

(** A text without line feed occurs in a sequence of lines only inside
    one of them. *)
Lemma HasPrefix_line (l rest t : string) :
  oneLine t = true -> HasPrefix (l +:+ newline +:+ rest) t = HasPrefix l t.
Proof.
  revert t; induction l as [|a l IH]; intros [|c t] H; try reflexivity.
  - simpl in H |- *. apply andb_prop in H as [Hc _].
    apply negb_true_iff in Hc. now rewrite Hc.
  - simpl in H. apply andb_prop in H as [_ Ht].
    change (String a l +:+ newline +:+ rest)
      with (String a (l +:+ newline +:+ rest)).
    cbn [HasPrefix]. now rewrite (IH t Ht).
Qed.

Lemma Contains_line (l rest t : string) :
  oneLine t = true -> t <> "" ->
  Contains (l +:+ newline +:+ rest) t = Contains l t || Contains rest t.
Proof.
  intros Ht Hne. induction l as [|a l IH].
  - change ("" +:+ newline +:+ rest) with (String LF rest).
    rewrite Contains_cons.
    change (String LF rest) with ("" +:+ newline +:+ rest).
    now rewrite HasPrefix_line.
  - change (String a l +:+ newline +:+ rest)
      with (String a (l +:+ newline +:+ rest)).
    rewrite !Contains_cons, IH.
    change (String a (l +:+ newline +:+ rest))
      with (String a l +:+ newline +:+ rest).
    now rewrite HasPrefix_line, orb_assoc.
Qed.

Lemma Contains_unlines (ls : list string) (t : string) :
  oneLine t = true -> t <> "" ->
  (forall l, In l ls -> Contains l t = false) ->
  Contains (unlines ls) t = false.
Proof.
  intros Ht Hne. induction ls as [|l ls IH]; intros H.
  - destruct t; [easy | reflexivity].
  - change (unlines (l :: ls)) with (l +:+ newline +:+ unlines ls).
    rewrite Contains_line, (H l), IH; auto.
    + intros l' Hl'. apply H. now right.
    + now left.
Qed.

Lemma HasPrefix_app_l (s p x : string) :
  HasPrefix s (p +:+ x) = true -> HasPrefix s p = true.
Proof.
  revert s; induction p as [|a p IH]; intros s H; [apply HasPrefix_empty |].
  destruct s as [|c s]; [discriminate H |].
  simpl in H |- *. apply andb_prop in H as [Hc Hp].
  now rewrite Hc, (IH s Hp).
Qed.

Lemma Contains_app_l (s p x : string) :
  Contains s p = false -> Contains s (p +:+ x) = false.
Proof.
  induction s as [|c s IH]; intros H.
  - change (Contains "" p) with (HasPrefix "" p) in H.
    change (Contains "" (p +:+ x)) with (HasPrefix "" (p +:+ x)).
    destruct (HasPrefix "" (p +:+ x)) eqn:Hp; [| reflexivity].
    apply HasPrefix_app_l in Hp. congruence.
  - rewrite Contains_cons in H |- *. apply orb_false_elim in H as [Hh Ht].
    rewrite (IH Ht), orb_false_r.
    destruct (HasPrefix (String c s) (p +:+ x)) eqn:Hp; [| reflexivity].
    apply HasPrefix_app_l in Hp. congruence.
Qed.

Lemma opened_getenv (keys : list string) (tr : list event) :
  opened (map EvGetenv keys ++ tr) = opened tr.
Proof. induction keys as [|k keys IH]; simpl; [reflexivity | exact IH]. Qed.

Lemma written_getenv (keys : list string) (tr : list event) :
  written (map EvGetenv keys ++ tr) = written tr.
Proof. induction keys as [|k keys IH]; simpl; [reflexivity | exact IH]. Qed.

(** The first missing key and the keys looked up before it. *)
Lemma find_missing_split (w : world) (keys : list string) (key : string) :
  find (missing w) keys = Some key ->
  exists pre post,
    keys = pre ++ key :: post /\
    (forall k, In k pre -> os.lookupEnv w k <> "") /\
    os.lookupEnv w key = "" /\
    checked w keys = pre ++ [key].
Proof.
  induction keys as [|a keys IH]; simpl; [discriminate |].
  destruct (missing w a) eqn:Ha.
  - intros [= <-]. exists [], keys. repeat split; [easy |].
    now apply String.eqb_eq in Ha.
  - intros H. destruct (IH H) as (pre & post & -> & Hpre & Hkey & Hch).
    exists (a :: pre), post. repeat split; [| exact Hkey | now rewrite Hch].
    intros k [<- | Hk]; [| now apply Hpre].
    now apply String.eqb_neq in Ha.
Qed.

Lemma find_missing_some (w : world) (keys : list string) (key : string) :
  In key keys -> os.lookupEnv w key = "" ->
  exists k, find (missing w) keys = Some k.
Proof.
  intros Hin Hk.
  destruct (find (missing w) keys) as [k|] eqn:Hf; [now exists k |].
  apply (find_none _ _ Hf) in Hin. unfold missing in Hin.
  now rewrite Hk in Hin.
Qed.

(** Where [Split] delivers an empty element. *)
Lemma Split_inner_empty (s : string) :
  Contains s ",," = true \/ (exists l, s = l +:+ ",") ->
  In "" (tl (Split s ",")).
Proof.
  induction s as [|c s IH]; intros [H | [l H]].
  - discriminate.
  - destruct l; discriminate.
  - rewrite Contains_cons in H. apply orb_prop in H as [H | H].
    + apply HasPrefix_split in H. simpl in H. injection H as -> ->.
      simpl. now left.
    + specialize (IH (or_introl H)). simpl.
      destruct (Ascii.eqb c ","); simpl.
      * destruct (Split s ","); [easy | now right].
      * destruct (Split s ","); [easy | exact IH].
  - destruct l as [|a l]; simpl in H.
    + injection H as -> ->. simpl. now left.
    + injection H as -> ->.
      specialize (IH (or_intror (ex_intro _ l eq_refl))). simpl.
      destruct (Ascii.eqb a ","); simpl.
      * destruct (Split (l +:+ ",") ","); [easy | now right].
      * destruct (Split (l +:+ ",") ","); [easy | exact IH].
Qed.

Lemma Split_empty_element (s : string) :
  s = "" \/ HasPrefix s "," = true \/ Contains s ",," = true \/
  (exists l, s = l +:+ ",") ->
  In "" (Split s ",").
Proof.
  intros [-> | [H | H]].
  - now left.
  - apply HasPrefix_split in H. rewrite H. now left.
  - apply Split_inner_empty in H.
    destruct (Split s ","); [easy | now right].
Qed.

End LineFacts.

(** * The claims *)

(** ** Failing runs *)

(** C5: if the value of some key is unset or empty, the run aborts with the
    "not found" failure; the keys are looked up in the order of the flag and
    the key reported is the first one without a value; nothing but the
    environment was consulted: no file was opened and none was written. *)
Theorem missing_key_aborts (g : flags) (w : world) :
  (exists key, In key (keysOf g) /\ os.lookupEnv w key = "") ->
  exists pre key post,
    keysOf g = pre ++ key :: post /\
    (forall k, In k pre -> os.lookupEnv w k <> "") /\
    os.lookupEnv w key = "" /\
    exec g w = Fatal (FatalErr (notFound key)) (w, map EvGetenv (pre ++ [key])) /\
    opened (traceOf (exec g w)) = [] /\
    written (traceOf (exec g w)) = [].
Proof.
  intros (key0 & Hin & Hempty).
  destruct (find_missing_some w _ _ Hin Hempty) as [key Hfind].
  destruct (find_missing_split w _ _ Hfind) as (pre & post & Hkeys & Hpre & Hkey & Hch).
  exists pre, key, post.
  assert (He : exec g w =
               Fatal (FatalErr (notFound key)) (w, map EvGetenv (pre ++ [key]))).
  { rewrite exec_cases. cbv zeta. now rewrite Hfind, Hch. }
  repeat split; try assumption; rewrite He; cbn [traceOf];
    rewrite <- (app_nil_r (map _ _)).
  - now rewrite opened_getenv.
  - now rewrite written_getenv.
Qed.

Lemma missing_key_aborts_witness :
  (exists key, In key (keysOf unsetKeyFlags) /\
               os.lookupEnv (plainWorld inOrder) key = "") /\
  exists pre key post,
    keysOf unsetKeyFlags = pre ++ key :: post /\
    (forall k, In k pre -> os.lookupEnv (plainWorld inOrder) k <> "") /\
    os.lookupEnv (plainWorld inOrder) key = "" /\
    exec unsetKeyFlags (plainWorld inOrder) =
      Fatal (FatalErr (notFound key))
            (plainWorld inOrder, map EvGetenv (pre ++ [key])) /\
    opened (traceOf (exec unsetKeyFlags (plainWorld inOrder))) = [] /\
    written (traceOf (exec unsetKeyFlags (plainWorld inOrder))) = [].
Proof.
  assert (H : exists key, In key (keysOf unsetKeyFlags) /\
                          os.lookupEnv (plainWorld inOrder) key = "").
  { exists "D". split; [vm_compute; tauto | reflexivity]. }
  split; [exact H | exact (missing_key_aborts _ _ H)].
Defined.

(** C9: a [--keys] value whose split at the commas has an empty element
    aborts the run with the "not found" failure before anything is written:
    the empty name has the empty value. *)
Theorem empty_key_aborts (g : flags) (w : world) :
  In "" (strings.Split (keyNames g) ",") ->
  os.lookupEnv w "" = "" /\
  exists key,
    os.lookupEnv w key = "" /\
    exec g w = Fatal (FatalErr (notFound key))
                     (w, map EvGetenv (checked w (keysOf g))) /\
    written (traceOf (exec g w)) = [].
Proof.
  intros Hin. split; [reflexivity |].
  destruct (find_missing_some w (keysOf g) "" Hin eq_refl) as [key Hfind].
  destruct (find_missing_split w _ _ Hfind) as (pre & post & _ & _ & Hkey & _).
  exists key.
  assert (He : exec g w = Fatal (FatalErr (notFound key))
                                (w, map EvGetenv (checked w (keysOf g)))).
  { rewrite exec_cases. cbv zeta. now rewrite Hfind. }
  repeat split; [exact Hkey | exact He |].
  rewrite He; cbn [traceOf]. rewrite <- (app_nil_r (map _ _)).
  now rewrite written_getenv.
Qed.

Lemma empty_key_aborts_witness :
  In "" (strings.Split (keyNames emptyKeyFlags) ",") /\
  os.lookupEnv (plainWorld inOrder) "" = "" /\
  exists key,
    os.lookupEnv (plainWorld inOrder) key = "" /\
    exec emptyKeyFlags (plainWorld inOrder) =
      Fatal (FatalErr (notFound key))
            (plainWorld inOrder,
             map EvGetenv (checked (plainWorld inOrder) (keysOf emptyKeyFlags))) /\
    written (traceOf (exec emptyKeyFlags (plainWorld inOrder))) = [].
Proof.
  assert (H : In "" (strings.Split (keyNames emptyKeyFlags) ","))
    by (vm_compute; tauto).
  split; [exact H | exact (empty_key_aborts _ (plainWorld inOrder) H)].
Defined.

(** C6: an input that is not exactly one path naming a file that is not a
    directory is rejected: the run ends in a failure, no file was opened and
    none was written; when all keys have a value and the path, if single,
    exists, the failure is the "only single file inputs" one. *)
Theorem unsupported_input_rejected (g : flags) (w : world) :
  singleFile g w = false ->
  exists f tr,
    exec g w = Fatal f (w, tr) /\
    opened tr = [] /\
    written tr = [] /\
    (find (missing w) (keysOf g) = None ->
     (forall p, paths g = [p] -> files w p <> None) ->
     f = FatalMsg "Only single file inputs are currently supported").
Proof.
  unfold singleFile. intros H. rewrite exec_cases. cbv zeta.
  destruct (find (missing w) (keysOf g)) as [key|].
  { eexists _, _. split; [reflexivity |].
    rewrite <- (app_nil_r (map _ _)), opened_getenv, written_getenv.
    repeat split. discriminate. }
  destruct (paths g) as [|p [|p' ps]].
  - eexists _, _. split; [reflexivity |].
    rewrite <- (app_nil_r (map _ _)), opened_getenv, written_getenv.
    now repeat split.
  - destruct (files w p) as [[|d]|] eqn:Hp; [| discriminate |];
      (eexists _, _; split; [reflexivity |]);
      rewrite opened_getenv, written_getenv; repeat split.
    intros _ Hex. now destruct (Hex p eq_refl).
  - eexists _, _. split; [reflexivity |].
    rewrite <- (app_nil_r (map _ _)), opened_getenv, written_getenv.
    now repeat split.
Qed.

Lemma unsupported_input_rejected_witness :
  singleFile directoryFlags bareWorld = false /\
  exists f tr,
    exec directoryFlags bareWorld = Fatal f (bareWorld, tr) /\
    opened tr = [] /\
    written tr = [] /\
    (find (missing bareWorld) (keysOf directoryFlags) = None ->
     (forall p, paths directoryFlags = [p] -> files bareWorld p <> None) ->
     f = FatalMsg "Only single file inputs are currently supported").
Proof.
  split; [reflexivity |].
  apply (unsupported_input_rejected directoryFlags bareWorld). reflexivity.
Defined.

(** C7: the file opened for the input path [p] is [p] with [.safekeeper]
    appended and no other; what is written is made from the data of that
    file; when it cannot be opened the run fails with the error of the open
    call and writes nothing. *)
Theorem template_not_found (g : flags) (w : world) (p : string) :
  forallb (fun key => negb (missing w key)) (keysOf g) = true ->
  paths g = [p] ->
  singleFile g w = true ->
  opened (traceOf (exec g w)) = [p +:+ ".safekeeper"] /\
  (forall data, Ready g w p data ->
     files w (p +:+ ".safekeeper") = Some (Reg data) /\
     written (traceOf (exec g w)) = [(target g p, header g +:+ body g w data)]) /\
  (files w (p +:+ ".safekeeper") = None ->
     exec g w = Fatal (FatalErr (PathError "open" (p +:+ ".safekeeper")))
                      (w, map EvGetenv (keysOf g) ++
                          [EvStat p; EvOpen (p +:+ ".safekeeper")]) /\
     written (traceOf (exec g w)) = []).
Proof.
  unfold singleFile. intros Hk Hp Hf. rewrite Hp in Hf.
  destruct (checked_all w _ Hk) as [Hfind Hch].
  split; [| split].
  - rewrite exec_cases. cbv zeta. rewrite Hfind, Hch, Hp.
    destruct (files w p) as [[|d]|]; try discriminate.
    destruct (files w (p +:+ ".safekeeper")) as [n|];
      [| cbn [traceOf]; now rewrite opened_getenv].
    destruct (bufio.scan _) as [lines [e|]];
      [cbn [traceOf]; now rewrite opened_getenv |].
    cbv zeta. destruct (ioutil.canWrite w _); cbn [traceOf];
      now rewrite opened_getenv.
  - intros data HR. split; [apply (ready_template _ _ _ _ HR) |].
    rewrite (exec_ready g w p data HR). unfold finish; cbn [traceOf].
    now rewrite written_getenv.
  - intros Ht.
    assert (He : exec g w =
      Fatal (FatalErr (PathError "open" (p +:+ ".safekeeper")))
            (w, map EvGetenv (keysOf g) ++ [EvStat p; EvOpen (p +:+ ".safekeeper")])).
    { rewrite exec_cases. cbv zeta. rewrite Hfind, Hch, Hp.
      destruct (files w p) as [[|d]|]; try discriminate. now rewrite Ht. }
    split; [exact He |]. rewrite He; cbn [traceOf]. now rewrite written_getenv.
Qed.

Lemma template_not_found_witness :
  (forallb (fun key => negb (missing bareWorld key)) (keysOf plainFlags) = true /\
   paths plainFlags = ["c.go"] /\ singleFile plainFlags bareWorld = true) /\
  opened (traceOf (exec plainFlags bareWorld)) = ["c.go" +:+ ".safekeeper"] /\
  (forall data, Ready plainFlags bareWorld "c.go" data ->
     files bareWorld ("c.go" +:+ ".safekeeper") = Some (Reg data) /\
     written (traceOf (exec plainFlags bareWorld)) =
       [(target plainFlags "c.go", header plainFlags +:+ body plainFlags bareWorld data)]) /\
  (files bareWorld ("c.go" +:+ ".safekeeper") = None ->
     exec plainFlags bareWorld =
       Fatal (FatalErr (PathError "open" ("c.go" +:+ ".safekeeper")))
             (bareWorld, map EvGetenv (keysOf plainFlags) ++
                         [EvStat "c.go"; EvOpen ("c.go" +:+ ".safekeeper")]) /\
     written (traceOf (exec plainFlags bareWorld)) = []).
Proof.
  split; [repeat split |].
  apply (template_not_found plainFlags bareWorld "c.go"); reflexivity.
Defined.

(** ** Runs that write their result *)

Lemma plain_ready (order : range_order) :
  Ready plainFlags (plainWorld order) "c.go" plainTemplate.
Proof. ready. Qed.

Lemma lookupEnv_environ (w1 w2 : world) (key : string) :
  environ w1 = environ w2 -> os.lookupEnv w1 key = os.lookupEnv w2 key.
Proof. unfold os.lookupEnv. now intros ->. Qed.

Lemma oneLine_directive (g : flags) :
  oneLine (keyNames g) = true -> oneLine (output g) = true ->
  oneLine (directive g) = true.
Proof.
  intros Hk Ho. unfold directive. rewrite !oneLine_app, Hk.
  destruct (String.eqb (output g) ""); [reflexivity |].
  now rewrite oneLine_app, Ho.
Qed.

(** C1, as amended: the header has two lines.  Line 1 is the fixed warning,
    line 2 is the directive that reproduces [--keys], [--output] when it is
    set, and ends with the reference [$GOFILE] to the current source file;
    the transformed template body starts on line 3 (for flags that hold no
    line feed). *)
Theorem header_two_lines (g : flags) (w : world) (p data : string) :
  Ready g w p data ->
  oneLine (keyNames g) = true ->
  oneLine (output g) = true ->
  exec g w = Ret tt (finish g w p (header g +:+ body g w data)) /\
  header g = warning +:+ newline +:+ directive g +:+ newline /\
  directive g =
    "//go:generate safekeeper --keys=" +:+ keyNames g +:+
    (if String.eqb (output g) "" then "" else " --output=" +:+ output g) +:+
    " $GOFILE" /\
  bufio.rawLines (header g +:+ body g w data) =
    warning :: directive g :: bufio.rawLines (body g w data).
Proof.
  intros HR Hk Ho. split; [now apply exec_ready |].
  split; [apply header_eq |]. split; [reflexivity |].
  rewrite header_eq, !append_assoc.
  rewrite rawLines_line by reflexivity.
  now rewrite rawLines_line by now apply oneLine_directive.
Qed.

Lemma header_two_lines_witness :
  (Ready plainFlags (plainWorld inOrder) "c.go" plainTemplate /\
   oneLine (keyNames plainFlags) = true /\ oneLine (output plainFlags) = true) /\
  exec plainFlags (plainWorld inOrder) =
    Ret tt (finish plainFlags (plainWorld inOrder) "c.go" plainOutput) /\
  header plainFlags = warning +:+ newline +:+ directive plainFlags +:+ newline /\
  directive plainFlags =
    "//go:generate safekeeper --keys=" +:+ keyNames plainFlags +:+
    (if String.eqb (output plainFlags) "" then ""
     else " --output=" +:+ output plainFlags) +:+
    " $GOFILE" /\
  bufio.rawLines plainOutput =
    warning :: directive plainFlags ::
    bufio.rawLines (body plainFlags (plainWorld inOrder) plainTemplate).
Proof.
  split; [split; [ready | split; reflexivity] |].
  apply (header_two_lines plainFlags (plainWorld inOrder) "c.go" plainTemplate);
    [ready | reflexivity | reflexivity].
Defined.

(** C1 as worded fails: the output of the example has the warning, the
    directive ending in [$GOFILE], and then at once the two body lines;
    there is no third header line. *)
Lemma header_three_lines_fails :
  exec plainFlags (plainWorld inOrder) =
    Ret tt (finish plainFlags (plainWorld inOrder) "c.go" plainOutput) /\
  bufio.rawLines plainOutput =
    [warning; "//go:generate safekeeper --keys=A,B $GOFILE"; "1-2"; "x := 1"] /\
  bufio.rawLines (body plainFlags (plainWorld inOrder) plainTemplate) =
    ["1-2"; "x := 1"] /\
  ~ threeLineHeader plainOutput (body plainFlags (plainWorld inOrder) plainTemplate).
Proof.
  split; [apply exec_ready, plain_ready |].
  split; [vm_compute; reflexivity |]. split; [vm_compute; reflexivity |].
  intros (l1 & l2 & l3 & H). vm_compute in H. discriminate H.
Qed.

(** C2, as amended: when every key has a non-empty value and no value
    overlaps the token of any key, the run succeeds (given one input file,
    its template in lines the scanner delivers and a destination that can be
    written) and no line of the output body holds the token [ENV_<key>] of
    any key, whatever the template and whatever the order of the replacers;
    the whole output holds no token of a key that has no line feed in it and
    whose token is not in the directive line of the header. *)
Theorem no_token_left (g : flags) (w : world) (p data : string) :
  Ready g w p data ->
  valuesClear g w = true ->
  exec g w = Ret tt (finish g w p (header g +:+ body g w data)) /\
  body g w data = unlines (bodyLines (replacersOf g w) (templateLines data)) /\
  (forall line key,
     In line (bodyLines (replacersOf g w) (templateLines data)) ->
     In key (keysOf g) ->
     strings.Contains line (tokenOf key) = false) /\
  (forall key,
     In key (keysOf g) ->
     oneLine key = true ->
     strings.Contains (directive g) (tokenOf key) = false ->
     strings.Contains (header g +:+ body g w data) (tokenOf key) = false).
Proof.
  intros HR Hv. split; [now apply exec_ready |]. split; [reflexivity |].
  assert (Hlines : forall line key,
            In line (bodyLines (replacersOf g w) (templateLines data)) ->
            In key (keysOf g) ->
            strings.Contains line (tokenOf key) = false).
  { intros line key Hline Hkey.
    apply in_map_iff in Hline as (l & <- & _).
    change (tokenOf key) with (strings.old (ruleOf w key)).
    apply applyReplacers_clean.
    - apply replacersOf_rulesOf, in_map, Hkey.
    - discriminate.
    - intros r Hr.
      apply replacersOf_rulesOf, in_map_iff in Hr as (k1 & <- & Hk1).
      unfold valuesClear in Hv. rewrite forallb_forall in Hv.
      specialize (Hv k1 Hk1). rewrite forallb_forall in Hv.
      apply negb_true_iff. exact (Hv key Hkey). }
  split; [exact Hlines |].
  intros key Hkey Hone Hdir.
  assert (Ht : oneLine (tokenOf key) = true) by exact Hone.
  assert (Hne : tokenOf key <> "") by discriminate.
  rewrite header_eq, !append_assoc.
  rewrite !Contains_line by assumption.
  rewrite Hdir. unfold body. rewrite Contains_unlines by auto.
  rewrite !orb_false_r. now apply (Contains_app_l warning "ENV_" key).
Qed.

Lemma no_token_left_witness :
  (Ready plainFlags (plainWorld reversed) "c.go" plainTemplate /\
   valuesClear plainFlags (plainWorld reversed) = true) /\
  exec plainFlags (plainWorld reversed) =
    Ret tt (finish plainFlags (plainWorld reversed) "c.go"
              (header plainFlags +:+ body plainFlags (plainWorld reversed) plainTemplate)) /\
  body plainFlags (plainWorld reversed) plainTemplate =
    unlines (bodyLines (replacersOf plainFlags (plainWorld reversed))
                       (templateLines plainTemplate)) /\
  (forall line key,
     In line (bodyLines (replacersOf plainFlags (plainWorld reversed))
                        (templateLines plainTemplate)) ->
     In key (keysOf plainFlags) ->
     strings.Contains line (tokenOf key) = false) /\
  (forall key,
     In key (keysOf plainFlags) ->
     oneLine key = true ->
     strings.Contains (directive plainFlags) (tokenOf key) = false ->
     strings.Contains
       (header plainFlags +:+ body plainFlags (plainWorld reversed) plainTemplate)
       (tokenOf key) = false).
Proof.
  split; [split; [ready | reflexivity] |].
  apply (no_token_left plainFlags (plainWorld reversed) "c.go" plainTemplate);
    [ready | reflexivity].
Defined.

(** The header is not substituted: a token in [--output] stays. *)
Example token_in_header :
  valuesClear (Flags "A,B" "ENV_A.go" ["c.go"]) (plainWorld inOrder) = true /\
  strings.Contains (header (Flags "A,B" "ENV_A.go" ["c.go"])) (tokenOf "A") = true.
Proof. split; vm_compute; reflexivity. Qed.

(** C2 as worded fails: both keys have a non-empty value and the run
    succeeds, yet the output holds the token of key [A]; in the other order
    of the replacers it holds the token of key [B]. *)
Lemma token_left_in_output :
  Ready plainFlags (crossWorld inOrder) "c.go" crossTemplate /\
  exec plainFlags (crossWorld inOrder) =
    Ret tt (finish plainFlags (crossWorld inOrder) "c.go" (crossOutput inOrder)) /\
  bufio.rawLines (body plainFlags (crossWorld inOrder) crossTemplate) =
    ["ENV_A ENV_A"] /\
  strings.Contains (crossOutput inOrder) (tokenOf "A") = true /\
  strings.Contains (crossOutput reversed) (tokenOf "B") = true.
Proof.
  assert (HR : Ready plainFlags (crossWorld inOrder) "c.go" crossTemplate) by ready.
  split; [exact HR |]. split; [exact (exec_ready _ _ _ _ HR) |].
  repeat split; vm_compute; reflexivity.
Qed.

Lemma body_specified (g : flags) (w : world) (data : string) :
  tokensApart g = true -> valuesApart g w = true ->
  body g w data = specifiedBody g w data.
Proof.
  intros Ht Hv. unfold body, bodyLines, specifiedBody. f_equal.
  apply map_ext. intros line. now apply applyReplacers_rulesOf.
Qed.

(** C3, as amended: when no key's token overlaps another key's token and
    no key's value overlaps another key's token, every template line (as the
    scanner delivers it) that is not dropped gives one line of the output
    body: the line with every occurrence of each [ENV_<key>] replaced by the
    value of that key, in one pass, followed by one line feed; lines are
    substituted one by one. *)
Theorem line_substitution (g : flags) (w : world) (p data : string) :
  Ready g w p data ->
  tokensApart g = true ->
  valuesApart g w = true ->
  exec g w = Ret tt (finish g w p (header g +:+ specifiedBody g w data)) /\
  specifiedBody g w data =
    unlines (map (replaceAll (rulesOf g w)) (keptLines (templateLines data))).
Proof.
  intros HR Ht Hv. split; [| reflexivity].
  rewrite (exec_ready g w p data HR).
  now rewrite body_specified.
Qed.

Lemma line_substitution_witness :
  (Ready plainFlags (plainWorld reversed) "c.go" plainTemplate /\
   tokensApart plainFlags = true /\
   valuesApart plainFlags (plainWorld reversed) = true) /\
  exec plainFlags (plainWorld reversed) =
    Ret tt (finish plainFlags (plainWorld reversed) "c.go"
              (header plainFlags +:+
               specifiedBody plainFlags (plainWorld reversed) plainTemplate)) /\
  specifiedBody plainFlags (plainWorld reversed) plainTemplate =
    unlines (map (replaceAll (rulesOf plainFlags (plainWorld reversed)))
                 (keptLines (templateLines plainTemplate))).
Proof.
  split; [split; [ready | split; reflexivity] |].
  apply (line_substitution plainFlags (plainWorld reversed) "c.go" plainTemplate);
    [ready | reflexivity | reflexivity].
Defined.

(** The scanner removes a carriage return before the line feed: the line
    substituted is the template line without it. *)
Example carriage_return_dropped :
  templateLines ("a" +:+ String CR newline +:+ "b" +:+ newline) = ["a"; "b"].
Proof. reflexivity. Qed.

(** C3 as worded fails: the tokens of [A] and [B] do not overlap, and the
    line [ENV_A ENV_B] with every token replaced by the value of its key is
    [ENV_B ENV_A]; the program writes [ENV_A ENV_A] in one order of the
    replacers and [ENV_B ENV_B] in the other. *)
Lemma sequential_not_simultaneous :
  tokensApart plainFlags = true /\
  exec plainFlags (crossWorld inOrder) =
    Ret tt (finish plainFlags (crossWorld inOrder) "c.go" (crossOutput inOrder)) /\
  templateLines crossTemplate = ["ENV_A ENV_B"] /\
  map (replaceAll (rulesOf plainFlags (crossWorld inOrder)))
      (keptLines (templateLines crossTemplate)) = ["ENV_B ENV_A"] /\
  bodyLines (replacersOf plainFlags (crossWorld inOrder))
            (templateLines crossTemplate) = ["ENV_A ENV_A"] /\
  bodyLines (replacersOf plainFlags (crossWorld reversed))
            (templateLines crossTemplate) = ["ENV_B ENV_B"] /\
  crossOutput inOrder <>
    header plainFlags +:+ specifiedBody plainFlags (crossWorld inOrder) crossTemplate.
Proof.
  split; [reflexivity |].
  split; [apply exec_ready; ready |].
  repeat split; try (vm_compute; reflexivity).
  vm_compute. discriminate.
Qed.

(** C8, as amended: two runs with the same flags, the same environment and
    the same template content write the same bytes, in whatever order each
    run ranges over its map, when no key's token overlaps another key's
    token and no key's value overlaps another key's token. *)
Theorem rerun_same_output (g : flags) (w1 w2 : world) (p data : string) :
  Ready g w1 p data ->
  Ready g w2 p data ->
  environ w1 = environ w2 ->
  tokensApart g = true ->
  valuesApart g w1 = true ->
  exists src,
    exec g w1 = Ret tt (finish g w1 p src) /\
    exec g w2 = Ret tt (finish g w2 p src).
Proof.
  intros HR1 HR2 Henv Ht Hv1.
  assert (Hrules : rulesOf g w2 = rulesOf g w1).
  { unfold rulesOf, ruleOf. apply map_ext. intros key.
    now rewrite (lookupEnv_environ w1 w2 key Henv). }
  assert (Hv2 : valuesApart g w2 = true).
  { unfold valuesApart, os.lookupEnv in *. now rewrite <- Henv. }
  exists (header g +:+ specifiedBody g w1 data). split.
  - rewrite (exec_ready g w1 p data HR1).
    now rewrite body_specified.
  - rewrite (exec_ready g w2 p data HR2).
    rewrite body_specified by assumption.
    unfold specifiedBody. now rewrite Hrules.
Qed.

Lemma rerun_same_output_witness :
  (Ready plainFlags (plainWorld inOrder) "c.go" plainTemplate /\
   Ready plainFlags (plainWorld reversed) "c.go" plainTemplate /\
   environ (plainWorld inOrder) = environ (plainWorld reversed) /\
   tokensApart plainFlags = true /\
   valuesApart plainFlags (plainWorld inOrder) = true) /\
  exists src,
    exec plainFlags (plainWorld inOrder) =
      Ret tt (finish plainFlags (plainWorld inOrder) "c.go" src) /\
    exec plainFlags (plainWorld reversed) =
      Ret tt (finish plainFlags (plainWorld reversed) "c.go" src).
Proof.
  split; [split; [ready | split; [ready | repeat split]] |].
  apply (rerun_same_output plainFlags (plainWorld inOrder) (plainWorld reversed)
           "c.go" plainTemplate); [ready | ready | reflexivity ..].
Defined.

(** C8 as worded fails: with the same flags, environment and template, and
    tokens that do not overlap, two runs that range over the map in
    different orders write different bytes. *)
Lemma order_changes_output :
  tokensApart plainFlags = true /\
  environ (crossWorld inOrder) = environ (crossWorld reversed) /\
  files (crossWorld inOrder) = files (crossWorld reversed) /\
  exec plainFlags (crossWorld inOrder) =
    Ret tt (finish plainFlags (crossWorld inOrder) "c.go" (crossOutput inOrder)) /\
  exec plainFlags (crossWorld reversed) =
    Ret tt (finish plainFlags (crossWorld reversed) "c.go" (crossOutput reversed)) /\
  crossOutput inOrder <> crossOutput reversed.
Proof.
  split; [reflexivity |]. split; [reflexivity |]. split; [reflexivity |].
  split; [apply exec_ready; ready |]. split; [apply exec_ready; ready |].
  vm_compute. discriminate.
Qed.

Lemma oneLine_rawLines (d l : string) : In l (bufio.rawLines d) -> oneLine l = true.
Proof.
  revert l; induction d as [|c d IH]; intros l Hin; [easy |].
  cbn [bufio.rawLines] in Hin. destruct (Ascii.eqb c LF) eqn:Hc.
  - destruct Hin as [<- | Hin]; [reflexivity | now apply IH].
  - destruct (bufio.rawLines d) as [|h t].
    + destruct Hin as [<- | []]. simpl. now rewrite Hc.
    + destruct Hin as [<- | Hin]; [| apply IH; now right].
      simpl. rewrite Hc. apply IH. now left.
Qed.

Lemma oneLine_dropCR (l : string) : oneLine l = true -> oneLine (bufio.dropCR l) = true.
Proof.
  induction l as [|c l IH]; [easy |]. intros H.
  simpl in H. apply andb_prop in H as [Hc Hl].
  destruct l as [|c' l].
  - simpl. destruct (Ascii.eqb c CR); [reflexivity |]. simpl. now rewrite Hc.
  - change (oneLine (bufio.dropCR (String c (String c' l))))
      with (negb (Ascii.eqb c LF) && oneLine (bufio.dropCR (String c' l))).
    now rewrite Hc, (IH Hl).
Qed.

Lemma oneLine_replaceFrom (r : strings.Replacer) (k : nat) (s : string) :
  oneLine (strings.new r) = true -> oneLine s = true ->
  oneLine (strings.replaceFrom r k s) = true.
Proof.
  intros Hn. revert k; induction s as [|c s IH]; intros k Hs; [reflexivity |].
  simpl in Hs. apply andb_prop in Hs as [Hc Hs].
  destruct k as [|k]; cbn [strings.replaceFrom]; [| now apply IH].
  destruct (strings.HasPrefix (String c s) (strings.old r)).
  - rewrite oneLine_app, Hn. now apply IH.
  - simpl. rewrite Hc. now apply IH.
Qed.

Lemma oneLine_applyReplacers (rs : list strings.Replacer) (line : string) :
  (forall r, In r rs -> oneLine (strings.new r) = true) ->
  oneLine line = true -> oneLine (applyReplacers rs line) = true.
Proof.
  unfold applyReplacers. revert line; induction rs as [|r rs IH]; intros line Hn Hl;
    [exact Hl |].
  simpl. apply IH.
  - intros r' Hr'. apply Hn. now right.
  - apply oneLine_replaceFrom; [apply Hn; now left | exact Hl].
Qed.

Lemma rawLines_unlines (ls : list string) :
  (forall l, In l ls -> oneLine l = true) -> bufio.rawLines (unlines ls) = ls.
Proof.
  induction ls as [|l ls IH]; intros H; [reflexivity |].
  change (unlines (l :: ls)) with (l +:+ newline +:+ unlines ls).
  rewrite rawLines_line by (apply H; now left).
  f_equal. apply IH. intros l' Hl'. apply H. now right.
Qed.




Lemma isDirective_directive (g : flags) : isDirective (directive g) = true.
Proof. reflexivity. Qed.




(** C10: every line put into the output body is followed by one line feed
    and nothing else, so what is written ends with a line feed; a template
    whose last line has no line feed is read like the same template with it,
    so its last line comes out with one. *)
Theorem line_feed_after_each_line (g : flags) (w : world) (p data : string) :
  Ready g w p data ->
  exec g w = Ret tt (finish g w p (header g +:+ body g w data)) /\
  body g w data =
    fold_right (fun line rest => line +:+ newline +:+ rest) ""
               (bodyLines (replacersOf g w) (templateLines data)) /\
  (exists text, header g +:+ body g w data = text +:+ newline) /\
  (forall d, d <> "" -> endsWithLF d = false ->
     templateLines (d +:+ newline) = templateLines d /\
     body g w (d +:+ newline) = body g w d).
Proof.
  intros HR. split; [exact (exec_ready g w p data HR) |].
  split; [reflexivity |]. split; [apply generated_ends |].
  intros d Hd He. unfold body, templateLines.
  now rewrite (rawLines_unterminated d Hd He).
Qed.

Lemma line_feed_after_each_line_witness :
  Ready plainFlags (plainWorld inOrder) "c.go" plainTemplate /\
  exec plainFlags (plainWorld inOrder) =
    Ret tt (finish plainFlags (plainWorld inOrder) "c.go"
              (header plainFlags +:+ body plainFlags (plainWorld inOrder) plainTemplate)) /\
  body plainFlags (plainWorld inOrder) plainTemplate =
    fold_right (fun line rest => line +:+ newline +:+ rest) ""
               (bodyLines (replacersOf plainFlags (plainWorld inOrder))
                          (templateLines plainTemplate)) /\
  (exists text,
     header plainFlags +:+ body plainFlags (plainWorld inOrder) plainTemplate =
     text +:+ newline) /\
  (forall d, d <> "" -> endsWithLF d = false ->
     templateLines (d +:+ newline) = templateLines d /\
     body plainFlags (plainWorld inOrder) (d +:+ newline) =
     body plainFlags (plainWorld inOrder) d).
Proof.
  split; [ready |].
  apply (line_feed_after_each_line plainFlags (plainWorld inOrder) "c.go" plainTemplate).
  ready.
Defined.

(** The template of the example has no line feed after its last line; the
    body written has one. *)
Example unterminated_last_line :
  endsWithLF plainTemplate = false /\
  body plainFlags (plainWorld inOrder) plainTemplate =
    "1-2" +:+ newline +:+ "x := 1" +:+ newline.
Proof. split; vm_compute; reflexivity. Qed.

(** * Further properties of the program *)

(** ** The error writer *)

(** X1: once a write of the error writer has failed, no later write changes
    the buffer; as long as none has failed, the buffer receives the values in
    order. *)
Theorem errWriter_sticky (ew : errWriter) (values : list string) :
  fold_left writeString values ew =
  match err ew with
  | Some _ => ew
  | None => {| b := b ew +:+ joined values; err := None |}
  end.
Proof.
  revert ew; induction values as [|v values IH]; intros [buf [e|]]; simpl.
  - reflexivity.
  - now rewrite append_empty_r.
  - now rewrite IH.
  - rewrite IH. unfold writeString; simpl. now rewrite append_assoc.
Qed.

(** ** Every way a run ends *)

(** X2: a run ends normally exactly when every key has a value, there is
    one path naming a file, its template can be read in lines that fit the
    scanner, and the destination can be written. *)
Theorem run_succeeds_iff (g : flags) (w : world) :
  (exists st, exec g w = Ret tt st) <-> (exists p data, Ready g w p data).
Proof.
  split.
  - intros [st H]. exact (exec_ret_ready g w st H).
  - intros (p & data & HR). eexists. exact (exec_ready g w p data HR).
Qed.

(** X3: a run that succeeds looks up every key once, in order, then stats
    the path, opens the template and writes once.  It writes to [--output]
    when that is given and over the input path otherwise; afterwards that
    path holds the header and the body, and the environment is the same. *)
Theorem result_replaces_target (g : flags) (w : world) (p data : string) :
  Ready g w p data ->
  traceOf (exec g w) =
    map EvGetenv (strings.Split (keyNames g) ",") ++
    [EvStat p; EvOpen (p +:+ ".safekeeper");
     EvWriteFile (target g p) (header g +:+ body g w data)] /\
  target g p = (if String.eqb (output g) "" then p else output g) /\
  files (worldOf (exec g w)) (target g p) =
    Some (Reg (header g +:+ body g w data)) /\
  environ (worldOf (exec g w)) = environ w.
Proof.
  intros HR. rewrite (exec_ready g w p data HR).
  unfold finish; cbn [traceOf worldOf ioutil.store files environ].
  repeat split. now rewrite String.eqb_refl.
Qed.

Lemma result_replaces_target_witness :
  Ready outputFlags (plainWorld inOrder) "c.go" plainTemplate /\
  traceOf (exec outputFlags (plainWorld inOrder)) =
    map EvGetenv (strings.Split (keyNames outputFlags) ",") ++
    [EvStat "c.go"; EvOpen ("c.go" +:+ ".safekeeper");
     EvWriteFile (target outputFlags "c.go")
       (header outputFlags +:+ body outputFlags (plainWorld inOrder) plainTemplate)] /\
  target outputFlags "c.go" =
    (if String.eqb (output outputFlags) "" then "c.go" else output outputFlags) /\
  files (worldOf (exec outputFlags (plainWorld inOrder))) (target outputFlags "c.go") =
    Some (Reg (header outputFlags +:+
               body outputFlags (plainWorld inOrder) plainTemplate)) /\
  environ (worldOf (exec outputFlags (plainWorld inOrder))) =
    environ (plainWorld inOrder).
Proof.
  split; [ready |].
  apply (result_replaces_target outputFlags (plainWorld inOrder) "c.go" plainTemplate).
  ready.
Defined.



(** X5: a template line of 65536 bytes or more stops the scanner with its
    "token too long" error; the run fails with it and writes nothing, not
    even the lines read before. *)
Theorem long_line_fatal (g : flags) (w : world) (p data : string) :
  forallb (fun key => negb (missing w key)) (keysOf g) = true ->
  paths g = [p] ->
  singleFile g w = true ->
  files w (p +:+ ".safekeeper") = Some (Reg data) ->
  forallb (fun raw => (N.of_nat (String.length raw) <? 65536)%N)
          (bufio.rawLines data) = false ->
  exec g w =
    Fatal (FatalErr ErrTooLong)
          (w, map EvGetenv (keysOf g) ++ [EvStat p; EvOpen (p +:+ ".safekeeper")]) /\
  written (traceOf (exec g w)) = [].
Proof.
  unfold singleFile. intros Hk Hp Hf Ht Hl. rewrite Hp in Hf.
  destruct (checked_all w _ Hk) as [Hfind Hch].
  assert (He : exec g w =
    Fatal (FatalErr ErrTooLong)
          (w, map EvGetenv (keysOf g) ++ [EvStat p; EvOpen (p +:+ ".safekeeper")])).
  { rewrite exec_cases. cbv zeta. rewrite Hfind, Hch, Hp.
    destruct (files w p) as [[|d]|]; try discriminate.
    rewrite Ht. unfold bufio.scan; cbn [os.holds].
    pose proof (scanLines_error _ Hl) as He.
    destruct (bufio.scanLines (bufio.rawLines data)) as [ls e]; simpl in He.
    now subst e. }
  split; [exact He |]. rewrite He; cbn [traceOf]. now rewrite written_getenv.
Qed.

Lemma long_line_fatal_witness :
  (forallb (fun key => negb (missing longWorld key)) (keysOf plainFlags) = true /\
   paths plainFlags = ["c.go"] /\
   singleFile plainFlags longWorld = true /\
   files longWorld ("c.go" +:+ ".safekeeper") = Some (Reg longTemplate) /\
   forallb (fun raw => (N.of_nat (String.length raw) <? 65536)%N)
           (bufio.rawLines longTemplate) = false) /\
  exec plainFlags longWorld =
    Fatal (FatalErr ErrTooLong)
          (longWorld,
           map EvGetenv (keysOf plainFlags) ++
           [EvStat "c.go"; EvOpen ("c.go" +:+ ".safekeeper")]) /\
  written (traceOf (exec plainFlags longWorld)) = [].
Proof.
  assert (H : forallb (fun raw => (N.of_nat (String.length raw) <? 65536)%N)
                      (bufio.rawLines longTemplate) = false)
    by (vm_compute; reflexivity).
  split; [repeat split; try exact H; reflexivity |].
  apply (long_line_fatal plainFlags longWorld "c.go" longTemplate);
    [reflexivity | reflexivity | reflexivity | reflexivity | exact H].
Defined.

(** X6: a single path that cannot be stat-ed ends the run inside [isFile]
    with the error of the stat call, not with the "only single file inputs"
    message; the template is not looked for. *)
Theorem missing_path_fatal (g : flags) (w : world) (p : string) :
  forallb (fun key => negb (missing w key)) (keysOf g) = true ->
  paths g = [p] ->
  files w p = None ->
  exec g w = Fatal (FatalErr (PathError "stat" p))
                   (w, map EvGetenv (keysOf g) ++ [EvStat p]).
Proof.
  intros Hk Hp Hf. destruct (checked_all w _ Hk) as [Hfind Hch].
  rewrite exec_cases. cbv zeta. now rewrite Hfind, Hch, Hp, Hf.
Qed.

Lemma missing_path_fatal_witness :
  (forallb (fun key => negb (missing bareWorld key)) (keysOf absentFlags) = true /\
   paths absentFlags = ["nope.go"] /\ files bareWorld "nope.go" = None) /\
  exec absentFlags bareWorld =
    Fatal (FatalErr (PathError "stat" "nope.go"))
          (bareWorld, map EvGetenv (keysOf absentFlags) ++ [EvStat "nope.go"]).
Proof.
  split; [repeat split |].
  apply (missing_path_fatal absentFlags bareWorld "nope.go"); reflexivity.
Defined.

(** X7: a template path that names a directory is opened without error;
    the scanner then delivers no line and reports the read error, with which
    the run fails without writing. *)
Theorem directory_template_fatal (g : flags) (w : world) (p : string) :
  forallb (fun key => negb (missing w key)) (keysOf g) = true ->
  paths g = [p] ->
  singleFile g w = true ->
  files w (p +:+ ".safekeeper") = Some Dir ->
  exec g w =
    Fatal (FatalErr (PathError "read" (p +:+ ".safekeeper")))
          (w, map EvGetenv (keysOf g) ++ [EvStat p; EvOpen (p +:+ ".safekeeper")]).
Proof.
  unfold singleFile. intros Hk Hp Hf Ht. rewrite Hp in Hf.
  destruct (checked_all w _ Hk) as [Hfind Hch].
  rewrite exec_cases. cbv zeta. rewrite Hfind, Hch, Hp.
  destruct (files w p) as [[|d]|]; try discriminate.
  now rewrite Ht.
Qed.

Lemma directory_template_fatal_witness :
  (forallb (fun key => negb (missing dirTemplateWorld key)) (keysOf plainFlags) = true /\
   paths plainFlags = ["c.go"] /\
   singleFile plainFlags dirTemplateWorld = true /\
   files dirTemplateWorld ("c.go" +:+ ".safekeeper") = Some Dir) /\
  exec plainFlags dirTemplateWorld =
    Fatal (FatalErr (PathError "read" ("c.go" +:+ ".safekeeper")))
          (dirTemplateWorld,
           map EvGetenv (keysOf plainFlags) ++
           [EvStat "c.go"; EvOpen ("c.go" +:+ ".safekeeper")]).
Proof.
  split; [repeat split |].
  apply (directory_template_fatal plainFlags dirTemplateWorld "c.go"); reflexivity.
Defined.

(** ** The map of key values and the replacers *)

(** X8: when every key has a value, [loadKeyValues] looks each key up once,
    in order, and returns the map that binds exactly the listed keys, each
    to its value in the environment; no key of the map is empty and no value
    is empty. *)
Theorem loadKeyValues_map (w : world) (keys : list string) (tr : list event) :
  forallb (fun key => negb (missing w key)) keys = true ->
  exists m : gmap string string,
    loadKeyValues keys (w, tr) = Ret (inl m) (w, tr ++ map EvGetenv keys) /\
    (forall k, In k keys -> m !! k = Some (os.lookupEnv w k)) /\
    (forall k, ~ In k keys -> m !! k = None) /\
    (forall k v, m !! k = Some v -> k <> "" /\ v <> "").
Proof.
  intros Hk. destruct (checked_all w _ Hk) as [Hfind Hch].
  exists (keyValuesFrom w keys ∅). split; [| split; [| split]].
  - unfold loadKeyValues. now rewrite loadKeyValuesFrom_spec, Hfind, Hch.
  - intros k Hin. now apply keyValuesFrom_In.
  - intros k Hout. now rewrite keyValuesFrom_notIn, lookup_empty.
  - intros k v Hm.
    destruct (in_dec string_dec k keys) as [Hin | Hout].
    + rewrite (keyValuesFrom_In w keys ∅ k Hin) in Hm. injection Hm as <-.
      rewrite forallb_forall in Hk. specialize (Hk k Hin).
      apply negb_true_iff, String.eqb_neq in Hk.
      split; [| exact Hk]. intros ->. now apply Hk.
    + rewrite (keyValuesFrom_notIn w keys ∅ k Hout), lookup_empty in Hm.
      discriminate.
Qed.

Lemma loadKeyValues_map_witness :
  forallb (fun key => negb (missing (plainWorld inOrder) key)) ["B"; "A"; "B"] = true /\
  exists m : gmap string string,
    loadKeyValues ["B"; "A"; "B"] (plainWorld inOrder, []) =
      Ret (inl m) (plainWorld inOrder, [] ++ map EvGetenv ["B"; "A"; "B"]) /\
    (forall k, In k ["B"; "A"; "B"] -> m !! k = Some (os.lookupEnv (plainWorld inOrder) k)) /\
    (forall k, ~ In k ["B"; "A"; "B"] -> m !! k = None) /\
    (forall k v, m !! k = Some v -> k <> "" /\ v <> "").
Proof.
  split; [reflexivity |].
  apply (loadKeyValues_map (plainWorld inOrder) ["B"; "A"; "B"] []). reflexivity.
Defined.

(** X9: the map returned does not depend on the order of the keys nor on
    how often a key is listed. *)
Theorem loadKeyValues_order (w : world) (ks1 ks2 : list string) (tr1 tr2 : list event) :
  forallb (fun key => negb (missing w key)) ks1 = true ->
  (forall k, In k ks1 <-> In k ks2) ->
  exists m : gmap string string,
    loadKeyValues ks1 (w, tr1) = Ret (inl m) (w, tr1 ++ map EvGetenv ks1) /\
    loadKeyValues ks2 (w, tr2) = Ret (inl m) (w, tr2 ++ map EvGetenv ks2).
Proof.
  intros Hk1 Hsame.
  assert (Hk2 : forallb (fun key => negb (missing w key)) ks2 = true).
  { rewrite forallb_forall in Hk1 |- *. intros k Hin. apply Hk1, Hsame, Hin. }
  destruct (checked_all w _ Hk1) as [Hf1 Hc1].
  destruct (checked_all w _ Hk2) as [Hf2 Hc2].
  exists (keyValuesFrom w ks1 ∅). unfold loadKeyValues.
  rewrite !loadKeyValuesFrom_spec, Hf1, Hc1, Hf2, Hc2. split; [reflexivity |].
  do 2 f_equal. apply map_eq. intros k.
  destruct (in_dec string_dec k ks1) as [Hin | Hout].
  - rewrite (keyValuesFrom_In w ks1 ∅ k Hin).
    apply keyValuesFrom_In, Hsame, Hin.
  - rewrite (keyValuesFrom_notIn w ks1 ∅ k Hout).
    apply keyValuesFrom_notIn. intros H. apply Hout, Hsame, H.
Qed.

Lemma loadKeyValues_order_witness :
  (forallb (fun key => negb (missing (plainWorld inOrder) key)) ["A"; "B"] = true /\
   (forall k, In k ["A"; "B"] <-> In k ["B"; "A"; "B"])) /\
  exists m : gmap string string,
    loadKeyValues ["A"; "B"] (plainWorld inOrder, []) =
      Ret (inl m) (plainWorld inOrder, [] ++ map EvGetenv ["A"; "B"]) /\
    loadKeyValues ["B"; "A"; "B"] (plainWorld inOrder, []) =
      Ret (inl m) (plainWorld inOrder, [] ++ map EvGetenv ["B"; "A"; "B"]).
Proof.
  assert (H : forall k, In k ["A"; "B"] <-> In k ["B"; "A"; "B"])
    by (intros k; simpl; tauto).
  split; [split; [reflexivity | exact H] |].
  apply (loadKeyValues_order (plainWorld inOrder) ["A"; "B"] ["B"; "A"; "B"] [] []);
    [reflexivity | exact H].
Defined.

(** X10: [setupReplacers] builds one replacer for each entry of the map and
    no other: as many replacers as the map has keys, no replacer twice, each
    replacing [ENV_] followed by a key with the value of that key; it
    performs no system call and leaves the world as it is. *)
Theorem setupReplacers_one_per_key (m : gmap string string) (w : world) (tr : list event) :
  exists rs,
    setupReplacers m (w, tr) = Ret rs (w, tr) /\
    length rs = size m /\
    NoDup rs /\
    (forall r, In r rs <->
       exists k v, m !! k = Some v /\ r = strings.NewReplacer ("ENV_" +:+ k) v).
Proof.
  eexists. split; [reflexivity |]. split; [| split].
  - rewrite length_map, (Permutation_length (visit_perm _ _)).
    apply length_map_to_list.
  - assert (Hnd : NoDup (maprange w (map_to_list m))).
    { rewrite (visit_perm (maprange w)). apply NoDup_map_to_list. }
    revert Hnd. generalize (maprange w (map_to_list m)).
    intros l; induction l as [|[k v] l IH]; intros Hnd; simpl; [constructor |].
    apply NoDup_cons in Hnd as [Hx Hnd]. apply NoDup_cons; split; [| now apply IH].
    intros Hin. apply list_elem_of_In, in_map_iff in Hin as ([k' v'] & Heq & Hin).
    injection Heq as -> ->. now apply Hx, list_elem_of_In.
  - intros r. rewrite in_map_iff. split.
    + intros ([k v] & <- & Hin).
      apply (Permutation_in _ (visit_perm _ _)) in Hin.
      apply list_elem_of_In, elem_of_map_to_list in Hin. now exists k, v.
    + intros (k & v & Hm & ->). exists (k, v). split; [reflexivity |].
      apply (Permutation_in _ (Permutation_sym (visit_perm _ _))).
      now apply list_elem_of_In, elem_of_map_to_list.
Qed.

(** ** Occurrences, the directive test and the key list *)

Lemma HasPrefix_Contains (s t : string) :
  strings.HasPrefix s t = true -> strings.Contains s t = true.
Proof. destruct s; simpl; [easy |]. now intros ->. Qed.

Lemma Contains_iff (s t : string) :
  strings.Contains s t = true <-> exists a b, s = a +:+ t +:+ b.
Proof.
  split.
  - induction s as [|c s IH]; intros H.
    + change (strings.HasPrefix "" t = true) in H.
      destruct t; [| discriminate]. now exists "", "".
    + rewrite Contains_cons in H. apply orb_prop in H as [H | H].
      * exists "", (from (String.length t) (String c s)).
        now apply HasPrefix_split.
      * destruct (IH H) as (a & b & ->). now exists (String c a), b.
  - intros (a & b & ->). induction a as [|c a IH].
    + change ("" +:+ t +:+ b) with (t +:+ b).
      apply HasPrefix_Contains, HasPrefix_app.
    + change (String c a +:+ t +:+ b) with (String c (a +:+ t +:+ b)).
      rewrite Contains_cons, IH. apply orb_true_r.
Qed.

(** X11: a line is taken for the tool's directive, and dropped, exactly
    when the two words [go:generate] and [safekeeper] both occur somewhere in
    it, in either order and in whatever surrounding text. *)
Theorem isDirective_iff (line : string) :
  isDirective line = true <->
  (exists a b, line = a +:+ "go:generate" +:+ b) /\
  (exists a b, line = a +:+ "safekeeper" +:+ b).
Proof.
  unfold isDirective. rewrite andb_true_iff, !Contains_iff. reflexivity.
Qed.

Lemma Replace_absent (r : strings.Replacer) (s : string) :
  strings.Contains s (strings.old r) = false -> strings.Replace r s = s.
Proof.
  induction s as [|c s IH]; intros H; [reflexivity |].
  rewrite Contains_cons in H. apply orb_false_elim in H as [Hp Hc].
  now rewrite Replace_miss, IH.
Qed.

Lemma applyReplacers_absent (rs : list strings.Replacer) (line : string) :
  forallb (fun r => negb (strings.Contains line (strings.old r))) rs = true ->
  applyReplacers rs line = line.
Proof.
  unfold applyReplacers. induction rs as [|r rs IH]; simpl; [reflexivity |].
  intros H. apply andb_prop in H as [Hr Hrs]. apply negb_true_iff in Hr.
  rewrite (Replace_absent r line Hr). exact (IH Hrs).
Qed.

(** X12: a line in which the token of no replacer occurs passes through
    all replacers unchanged. *)
Theorem line_without_token_unchanged (rs : list strings.Replacer) (line : string) :
  forallb (fun r => negb (strings.Contains line (strings.old r))) rs = true ->
  applyReplacers rs line = line.
Proof. apply applyReplacers_absent. Qed.

Lemma line_without_token_unchanged_witness :
  forallb (fun r => negb (strings.Contains "x := ENV_C + 1" (strings.old r)))
          (replacersOf plainFlags (plainWorld reversed)) = true /\
  applyReplacers (replacersOf plainFlags (plainWorld reversed)) "x := ENV_C + 1" =
    "x := ENV_C + 1".
Proof.
  split; [vm_compute; reflexivity |].
  apply (line_without_token_unchanged
           (replacersOf plainFlags (plainWorld reversed)) "x := ENV_C + 1").
  vm_compute; reflexivity.
Defined.

Lemma Split_nonempty (s : string) : strings.Split s "," <> [].
Proof.
  destruct s as [|c s]; simpl; [discriminate |].
  destruct (Ascii.eqb c ","); [discriminate |].
  destruct (strings.Split s ","); discriminate.
Qed.

(** X13: the key list is the flag cut at its commas: no key holds a comma,
    there is at least one key, and the keys joined by commas are the flag
    again. *)
Theorem Split_join (s : string) :
  String.concat "," (strings.Split s ",") = s /\
  strings.Split s "," <> [] /\
  (forall key, In key (strings.Split s ",") -> strings.Contains key "," = false).
Proof.
  split; [| split; [apply Split_nonempty |]].
  - induction s as [|c s IH]; [reflexivity |].
    pose proof (Split_nonempty s) as Hne.
    cbn [strings.Split].
    destruct (Ascii.eqb_spec c ",") as [-> | Hc].
    + destruct (strings.Split s ",") as [|h t]; [contradiction |].
      change (String.concat "," ("" :: h :: t))
        with ("" +:+ "," +:+ String.concat "," (h :: t)).
      now rewrite IH.
    + destruct (strings.Split s ",") as [|h t]; [contradiction |].
      rewrite <- IH. destruct t; reflexivity.
  - induction s as [|c s IH]; intros key Hin.
    + destruct Hin as [<- | []]. reflexivity.
    + cbn [strings.Split] in Hin.
      destruct (Ascii.eqb c ",") eqn:Hc.
      * destruct Hin as [<- | Hin]; [reflexivity | now apply IH].
      * pose proof (Split_nonempty s) as Hne.
        destruct (strings.Split s ",") as [|h t]; [contradiction |].
        destruct Hin as [<- | Hin]; [| apply IH; now right].
        rewrite Contains_cons, (IH h (or_introl eq_refl)), orb_false_r.
        cbn [strings.HasPrefix]. rewrite Ascii.eqb_sym, Hc. reflexivity.
Qed.

(** ** Lines in, lines out *)

Lemma dropCR_snoc (l : string) : bufio.dropCR (l +:+ String CR "") = l.
Proof.
  induction l as [|c l IH]; [reflexivity |].
  destruct l as [|c' l]; [reflexivity |].
  change (bufio.dropCR (String c (String c' l) +:+ String CR ""))
    with (String c (bufio.dropCR (String c' l +:+ String CR ""))).
  now rewrite IH.
Qed.

(** X14: the scanner takes a carriage return before the line feed as part
    of the line end: a line ended by carriage return and line feed is
    delivered without them, and of several carriage returns only the last is
    removed. *)
Theorem carriage_return_line_end (l rest : string) :
  oneLine l = true ->
  templateLines (l +:+ String CR newline +:+ rest) = l :: templateLines rest /\
  templateLines (l +:+ newline +:+ rest) = bufio.dropCR l :: templateLines rest.
Proof.
  intros Hl. unfold templateLines. split.
  - change (String CR newline +:+ rest) with (String CR "" +:+ newline +:+ rest).
    rewrite <- append_assoc, rawLines_line.
    + cbn [map]. now rewrite dropCR_snoc.
    + rewrite oneLine_app, Hl. reflexivity.
  - now rewrite rawLines_line.
Qed.

Lemma carriage_return_line_end_witness :
  oneLine (String "a" (String CR "")) = true /\
  templateLines (String "a" (String CR "") +:+ String CR newline +:+ "b") =
    String "a" (String CR "") :: templateLines "b" /\
  templateLines (String "a" (String CR "") +:+ newline +:+ "b") =
    bufio.dropCR (String "a" (String CR "")) :: templateLines "b".
Proof.
  split; [reflexivity |].
  apply (carriage_return_line_end (String "a" (String CR "")) "b"). reflexivity.
Defined.

Lemma rawLines_empty_inv (d : string) : bufio.rawLines d = [] -> d = "".
Proof.
  destruct d as [|c d]; [reflexivity |]. cbn [bufio.rawLines].
  destruct (Ascii.eqb c LF); [discriminate |].
  destruct (bufio.rawLines d); discriminate.
Qed.

Lemma unlines_rawLines_eq (d : string) :
  unlines (bufio.rawLines d) =
  if String.eqb d "" || endsWithLF d then d else d +:+ newline.
Proof.
  induction d as [|c d IH]; [reflexivity |].
  cbn [bufio.rawLines]. destruct (Ascii.eqb_spec c LF) as [-> | Hc].
  - change (unlines ("" :: bufio.rawLines d))
      with (String LF (unlines (bufio.rawLines d))).
    rewrite IH. destruct d as [|c' d]; [reflexivity |].
    change (endsWithLF (String LF (String c' d))) with (endsWithLF (String c' d)).
    cbn [String.eqb orb]. now destruct (endsWithLF (String c' d)).
  - destruct (bufio.rawLines d) as [|h t] eqn:Hd.
    + apply rawLines_empty_inv in Hd. subst d.
      apply Ascii.eqb_neq in Hc. cbn. now rewrite Hc.
    + change (unlines (String c h :: t)) with (String c (unlines (h :: t))).
      rewrite IH. destruct d as [|c' d]; [discriminate Hd |].
      change (endsWithLF (String c (String c' d))) with (endsWithLF (String c' d)).
      cbn [String.eqb orb]. now destruct (endsWithLF (String c' d)).
Qed.

(** X16: a template whose lines have no carriage return at the end, are no
    directives and hold no token of a key comes out as the body byte for
    byte, with a line feed added when its last line had none. *)
Theorem body_verbatim (g : flags) (w : world) (data : string) :
  forallb (verbatimLine g) (bufio.rawLines data) = true ->
  body g w data =
  if String.eqb data "" || endsWithLF data then data else data +:+ newline.
Proof.
  intros H. rewrite <- unlines_rawLines_eq. unfold body. f_equal.
  unfold bodyLines, keptLines, templateLines.
  induction (bufio.rawLines data) as [|l ls IH]; [reflexivity |].
  cbn [forallb] in H. apply andb_prop in H as [Hl Hls].
  unfold verbatimLine in Hl.
  apply andb_prop in Hl as [Hl Hk]. apply andb_prop in Hl as [Hcr Hdir].
  apply String.eqb_eq in Hcr.
  cbn [map List.filter]. rewrite Hcr, Hdir. cbn [map]. rewrite (IH Hls). f_equal.
  apply applyReplacers_absent.
  apply forallb_forall. intros r Hr.
  apply replacersOf_rulesOf, in_map_iff in Hr as (k & <- & Hin).
  rewrite forallb_forall in Hk. exact (Hk k Hin).
Qed.

Lemma body_verbatim_witness :
  forallb (verbatimLine plainFlags)
          (bufio.rawLines ("package main" +:+ newline +:+ "var ENV_C = 0")) = true /\
  body plainFlags (plainWorld reversed)
       ("package main" +:+ newline +:+ "var ENV_C = 0") =
  if String.eqb ("package main" +:+ newline +:+ "var ENV_C = 0") "" ||
     endsWithLF ("package main" +:+ newline +:+ "var ENV_C = 0")
  then "package main" +:+ newline +:+ "var ENV_C = 0"
  else ("package main" +:+ newline +:+ "var ENV_C = 0") +:+ newline.
Proof.
  split; [vm_compute; reflexivity |].
  apply (body_verbatim plainFlags (plainWorld reversed)
           ("package main" +:+ newline +:+ "var ENV_C = 0")).
  vm_compute; reflexivity.
Defined.

(** X17: when neither the flags nor the values of the keys hold a line
    feed, what is written has the two header lines and then exactly one line
    for each template line that is kept, in the order of the template: the
    kept line after all replacers. *)
Theorem output_line_by_line (g : flags) (w : world) (p data : string) :
  Ready g w p data ->
  oneLine (keyNames g) = true ->
  oneLine (output g) = true ->
  forallb (fun key => oneLine (os.lookupEnv w key)) (keysOf g) = true ->
  written (traceOf (exec g w)) = [(target g p, header g +:+ body g w data)] /\
  bufio.rawLines (header g +:+ body g w data) =
    warning :: directive g ::
    map (applyReplacers (replacersOf g w)) (keptLines (templateLines data)) /\
  length (bufio.rawLines (header g +:+ body g w data)) =
    2 + length (keptLines (templateLines data)).
Proof.
  intros HR Hk Ho Hv.
  assert (Hlines : bufio.rawLines (header g +:+ body g w data) =
            warning :: directive g ::
            map (applyReplacers (replacersOf g w)) (keptLines (templateLines data))).
  { rewrite header_eq, !append_assoc.
    rewrite rawLines_line by reflexivity.
    rewrite rawLines_line by now apply oneLine_directive.
    do 2 f_equal. unfold body. apply rawLines_unlines.
    intros l Hl. apply in_map_iff in Hl as (t & <- & Ht).
    apply oneLine_applyReplacers.
    - intros r Hr. apply replacersOf_rulesOf, in_map_iff in Hr as (k & <- & Hin).
      rewrite forallb_forall in Hv. exact (Hv k Hin).
    - apply filter_In in Ht as [Ht _]. apply in_map_iff in Ht as (raw & <- & Hraw).
      apply oneLine_dropCR. exact (oneLine_rawLines data raw Hraw). }
  split; [| split; [exact Hlines |]].
  - rewrite (exec_ready g w p data HR). unfold finish; cbn [traceOf].
    now rewrite written_getenv.
  - rewrite Hlines. cbn [length]. now rewrite length_map.
Qed.

Lemma output_line_by_line_witness :
  (Ready plainFlags (plainWorld inOrder) "c.go" plainTemplate /\
   oneLine (keyNames plainFlags) = true /\
   oneLine (output plainFlags) = true /\
   forallb (fun key => oneLine (os.lookupEnv (plainWorld inOrder) key))
           (keysOf plainFlags) = true) /\
  written (traceOf (exec plainFlags (plainWorld inOrder))) =
    [(target plainFlags "c.go",
      header plainFlags +:+ body plainFlags (plainWorld inOrder) plainTemplate)] /\
  bufio.rawLines
    (header plainFlags +:+ body plainFlags (plainWorld inOrder) plainTemplate) =
    warning :: directive plainFlags ::
    map (applyReplacers (replacersOf plainFlags (plainWorld inOrder)))
        (keptLines (templateLines plainTemplate)) /\
  length (bufio.rawLines
            (header plainFlags +:+ body plainFlags (plainWorld inOrder) plainTemplate)) =
    2 + length (keptLines (templateLines plainTemplate)).
Proof.
  split; [split; [ready | repeat split] |].
  apply (output_line_by_line plainFlags (plainWorld inOrder) "c.go" plainTemplate);
    [ready | reflexivity | reflexivity | reflexivity].
Defined.

Lemma append_not_empty (x y : string) : y <> "" -> x +:+ y <> "".
Proof. destruct x; [easy | discriminate]. Qed.

Lemma dropCR_app (x y : string) :
  y <> "" -> bufio.dropCR (x +:+ y) = x +:+ bufio.dropCR y.
Proof.
  intros Hy. induction x as [|c x IH]; [reflexivity |].
  change (String c x +:+ y) with (String c (x +:+ y)).
  pose proof (append_not_empty x y Hy) as Hne.
  destruct (x +:+ y) as [|c' z] eqn:Hz; [contradiction |].
  change (bufio.dropCR (String c (String c' z)))
    with (String c (bufio.dropCR (String c' z))).
  now rewrite IH.
Qed.

Lemma dropCR_directive (g : flags) : bufio.dropCR (directive g) = directive g.
Proof.
  unfold directive. rewrite !dropCR_app; try reflexivity; try discriminate.
  - apply append_not_empty. discriminate.
  - apply append_not_empty, append_not_empty. discriminate.
Qed.

(** X18: run on a text it has written, the program drops the directive
    line of the old header but keeps the old warning line: the new body is
    the warning line followed by the body made of the rest.  Each such round
    adds a warning line. *)
Theorem regenerated_body (g : flags) (w : world) (rest : string) :
  oneLine (keyNames g) = true ->
  oneLine (output g) = true ->
  body g w (header g +:+ rest) = warning +:+ newline +:+ body g w rest.
Proof.
  intros Hk Ho. unfold body, bodyLines, templateLines.
  rewrite header_eq, !append_assoc.
  rewrite rawLines_line by reflexivity.
  rewrite rawLines_line by now apply oneLine_directive.
  cbn [map]. rewrite dropCR_directive.
  change (bufio.dropCR warning) with warning.
  unfold keptLines; cbn [List.filter].
  rewrite isDirective_directive.
  change (isDirective warning) with false. cbn [negb map].
  change (unlines (?x :: ?ls)) with (x +:+ newline +:+ unlines ls).
  rewrite applyReplacers_absent; [reflexivity |].
  apply forallb_forall. intros r Hr.
  apply replacersOf_rulesOf, in_map_iff in Hr as (k & <- & _).
  apply negb_true_iff. now apply (Contains_app_l warning "ENV_" k).
Qed.

Lemma regenerated_body_witness :
  (oneLine (keyNames plainFlags) = true /\ oneLine (output plainFlags) = true) /\
  body plainFlags (plainWorld inOrder) (header plainFlags +:+ plainTemplate) =
    warning +:+ newline +:+ body plainFlags (plainWorld inOrder) plainTemplate.
Proof.
  split; [split; reflexivity |].
  apply (regenerated_body plainFlags (plainWorld inOrder) plainTemplate);
    reflexivity.
Defined.

(** ** More on how runs end *)

(** X19: with no path or with several paths, none of them is examined: the
    run fails with the "only single file inputs" message right after the
    keys were looked up, whatever the paths name. *)
Theorem several_paths_not_examined (g : flags) (w : world) :
  forallb (fun key => negb (missing w key)) (keysOf g) = true ->
  length (paths g) <> 1 ->
  exec g w = Fatal (FatalMsg "Only single file inputs are currently supported")
                   (w, map EvGetenv (keysOf g)).
Proof.
  intros Hk Hp. destruct (checked_all w _ Hk) as [Hfind Hch].
  rewrite exec_cases. cbv zeta. rewrite Hfind, Hch.
  destruct (paths g) as [|p [|p' ps]]; try reflexivity.
  now contradiction Hp.
Qed.

Lemma several_paths_not_examined_witness :
  (forallb (fun key => negb (missing bareWorld key))
           (keysOf (Flags "A,B" "" ["c.go"; "nope.go"])) = true /\
   length (paths (Flags "A,B" "" ["c.go"; "nope.go"])) <> 1) /\
  exec (Flags "A,B" "" ["c.go"; "nope.go"]) bareWorld =
    Fatal (FatalMsg "Only single file inputs are currently supported")
          (bareWorld, map EvGetenv (keysOf (Flags "A,B" "" ["c.go"; "nope.go"]))).
Proof.
  split; [split; [reflexivity | discriminate] |].
  apply (several_paths_not_examined (Flags "A,B" "" ["c.go"; "nope.go"]) bareWorld);
    [reflexivity | discriminate].
Defined.
